(** * Overflow-checked integer arithmetic of the DNG SDK

    A shallow embedding of [source/dng_safe_arithmetic.h] and
    [source/dng_safe_arithmetic.cpp], and the properties of the checked
    operations proved over it.

    C++ integers are modelled as [Z] together with the integer type they
    are computed in.  Unsigned arithmetic wraps around, signed overflow
    and division by zero are undefined behaviour; both are outcomes of
    the embedding, so that "the check runs before the operation" is a
    statement one can prove. *)

From Stdlib Require Import ZArith Bool String List Lia.
Import ListNotations.

Local Open Scope string_scope.
Local Open Scope Z_scope.

(** ** Integer types *)

Module CInt.

(** An integer type of the target: its signedness and its width in
    bits.  [std::numeric_limits<T>::min()] and [max()] follow. *)
Record IntType : Type := MkIntType { is_signed : bool; width : positive }.

Definition int32_t  : IntType := MkIntType true 32.
Definition uint32_t : IntType := MkIntType false 32.
Definition int64_t  : IntType := MkIntType true 64.

(** [std::size_t] is an unsigned type whose width the platform
    chooses. *)
Definition size_t (size_bits : positive) : IntType := MkIntType false size_bits.

Definition modulus (T : IntType) : Z := 2 ^ Z.pos (width T).
Definition half_modulus (T : IntType) : Z := 2 ^ (Z.pos (width T) - 1).

Definition numeric_max (T : IntType) : Z :=
  if is_signed T then half_modulus T - 1 else modulus T - 1.

Definition numeric_min (T : IntType) : Z :=
  if is_signed T then - half_modulus T else 0.

Definition INT64_MAX : Z := numeric_max int64_t.
Definition INT64_MIN : Z := numeric_min int64_t.

(** The values of type [T]. *)
Definition representable (T : IntType) (z : Z) : Prop :=
  numeric_min T <= z <= numeric_max T.

Definition fits (T : IntType) (z : Z) : bool :=
  (numeric_min T <=? z) && (z <=? numeric_max T).

(** [static_cast<T>(z)]: reduction modulo [2^width], into the range of
    [T] (two's complement for a signed destination). *)
Definition static_cast (T : IntType) (z : Z) : Z :=
  if is_signed T
  then (z + half_modulus T) mod modulus T - half_modulus T
  else z mod modulus T.

End CInt.
Export CInt.

(** ** Outcomes, the output slot and the raised conditions *)

Module Exec.

(** What the language leaves undefined and this module has to stay
    clear of. *)
Inductive UB : Type := DivisionByZero | SignedOverflow.

Inductive Outcome (A : Type) : Type :=
| Returns (a : A)
| Throws (what : string)
| Undefined (why : UB).
Arguments Returns {A} a.
Arguments Throws {A} what.
Arguments Undefined {A} why.

(** The state a call can observe or change: the caller-supplied
    output slot ([*result], [*dest]), and the conditions raised so
    far, most recent first. *)
Record Machine : Type := MkMachine { slot : Z; thrown : list string }.

Definition M (A : Type) : Type := Machine -> Outcome A * Machine.

Definition ret {A} (a : A) : M A := fun m => (Returns a, m).

Definition bind {A B} (c : M A) (k : A -> M B) : M B :=
  fun m =>
    match c m with
    | (Returns a, m') => k a m'
    | (Throws what, m') => (Throws what, m')
    | (Undefined why, m') => (Undefined why, m')
    end.

Definition undefined {A} (why : UB) : M A := fun m => (Undefined why, m).

(** [*result = v] *)
Definition store (v : Z) : M unit :=
  fun m => (Returns tt, MkMachine v (thrown m)).

(** [try { body } catch (const dng_exception &) { handler }] *)
Definition try_catch {A} (body handler : M A) : M A :=
  fun m =>
    match body m with
    | (Throws _, m') => handler m'
    | r => r
    end.

(** A local variable initialised to [init] whose address is passed
    as the output slot of [body]; the caller's own slot is back in
    place afterwards, and the local's last value is handed to [k]. *)
Definition with_local {A B} (init : Z) (body : M A) (k : A -> Z -> M B) : M B :=
  fun m =>
    match body (MkMachine init (thrown m)) with
    | (Returns a, m') => k a (slot m') (MkMachine (slot m) (thrown m'))
    | (Throws what, m') => (Throws what, MkMachine (slot m) (thrown m'))
    | (Undefined why, m') => (Undefined why, MkMachine (slot m) (thrown m'))
    end.

Definition outcome {A} (r : Outcome A * Machine) : Outcome A := fst r.
Definition final {A} (r : Outcome A * Machine) : Machine := snd r.

(** The machine after one more condition [what] has been raised. *)
Definition raised (what : string) (m : Machine) : Machine :=
  MkMachine (slot m) (what :: thrown m).

End Exec.
Export Exec.

Declare Scope cxx_scope.
Delimit Scope cxx_scope with cxx.
Notation "x <- c ;; k" := (bind c (fun x => k))
  (at level 61, c at next level, right associativity) : cxx_scope.
Notation "c ;; k" := (bind c (fun _ => k))
  (at level 61, right associativity) : cxx_scope.
(** Short-circuit [&&] and [||]: the right operand runs only when the
    left one does not decide. *)
Notation "c1 &&& c2" := (bind c1 (fun b : bool => if b then c2 else ret false))
  (at level 40, left associativity) : cxx_scope.
Notation "c1 ||| c2" := (bind c1 (fun b : bool => if b then ret true else c2))
  (at level 50, left associativity) : cxx_scope.
Local Open Scope cxx_scope.

(** ** Primitive arithmetic in a type [T] *)

(** The operations are computed in the type of their operands: the
    types the module instantiates them at ([int32_t], [uint32_t],
    [int64_t], [size_t]) are not narrower than [int], so no integral
    promotion intervenes. *)

Module Prim.

Definition wrap_or_overflow (T : IntType) (z : Z) : M Z :=
  if is_signed T
  then if fits T z then ret z else undefined SignedOverflow
  else ret (z mod modulus T).

Definition c_add (T : IntType) (a b : Z) : M Z := wrap_or_overflow T (a + b).
Definition c_sub (T : IntType) (a b : Z) : M Z := wrap_or_overflow T (a - b).
Definition c_mul (T : IntType) (a b : Z) : M Z := wrap_or_overflow T (a * b).

(** [a / b] truncates towards zero; a zero divisor is undefined, and
    so is the one signed quotient that does not fit, [min / -1]. *)
Definition c_div (T : IntType) (a b : Z) : M Z :=
  if b =? 0 then undefined DivisionByZero
  else if is_signed T && (a =? numeric_min T) && (b =? -1)
       then undefined SignedOverflow
       else ret (a ÷ b).

Definition c_rem (T : IntType) (a b : Z) : M Z :=
  if b =? 0 then undefined DivisionByZero
  else if is_signed T && (a =? numeric_min T) && (b =? -1)
       then undefined SignedOverflow
       else ret (Z.rem a b).

End Prim.
Export Prim.

(** ** The error-signalling facility *)

(** Modelled from the spec: [ThrowProgramError] is declared in
    [dng_exceptions.h], which is not part of the sources at hand.  It
    is the facility to "raise an arithmetic-error condition with a
    message": control leaves the caller with a [dng_exception], and the
    statements after the call are not reached. *)
Definition ThrowProgramError (msg : string) : M unit :=
  fun m => (Throws msg, raised msg m).

(** ** dng_safe_arithmetic.cpp *)

(** [template <class T> T SafeAdd(T arg1, T arg2)] *)
Definition SafeAdd (T : IntType) (arg1 arg2 : Z) : M Z :=
  valid <- ((ret (arg1 >=? 0) &&&
               (hi <- c_sub T (numeric_max T) arg1 ;; ret (arg2 <=? hi)))
            |||
            (ret (arg1 <? 0) &&&
               (lo <- c_sub T (numeric_min T) arg1 ;; ret (arg2 >=? lo)))) ;;
  if valid : bool
  then c_add T arg1 arg2
  else ThrowProgramError "Arithmetic overflow" ;; ret 0.

(** [template <class T> T SafeUnsignedMult(T arg1, T arg2)] *)
Definition SafeUnsignedMult (T : IntType) (arg1 arg2 : Z) : M Z :=
  valid <- (ret (arg1 =? 0) |||
            (q <- c_div T (numeric_max T) arg1 ;; ret (arg2 <=? q))) ;;
  if valid : bool
  then c_mul T arg1 arg2
  else ThrowProgramError "Arithmetic overflow" ;; ret 0.

(** [std::int32_t SafeInt32Add(std::int32_t arg1, std::int32_t arg2)] *)
Definition SafeInt32Add (arg1 arg2 : Z) : M Z := SafeAdd int32_t arg1 arg2.

(** [bool SafeInt32Add(std::int32_t arg1, std::int32_t arg2,
    std::int32_t *result)] *)
Definition SafeInt32Add_status (arg1 arg2 : Z) : M bool :=
  try_catch
    (v <- SafeInt32Add arg1 arg2 ;; store v ;; ret true)
    (ret false).

(** [std::int64_t SafeInt64Add(std::int64_t arg1, std::int64_t arg2)] *)
Definition SafeInt64Add (arg1 arg2 : Z) : M Z := SafeAdd int64_t arg1 arg2.

(** [std::uint32_t SafeUint32Add(std::uint32_t arg1, std::uint32_t arg2)] *)
Definition SafeUint32Add (arg1 arg2 : Z) : M Z := SafeAdd uint32_t arg1 arg2.

(** [bool SafeUint32Add(std::uint32_t arg1, std::uint32_t arg2,
    std::uint32_t *result)] *)
Definition SafeUint32Add_status (arg1 arg2 : Z) : M bool :=
  try_catch
    (v <- SafeUint32Add arg1 arg2 ;; store v ;; ret true)
    (ret false).

(** [bool SafeInt32Sub(std::int32_t arg1, std::int32_t arg2,
    std::int32_t *result)] *)
Definition SafeInt32Sub_status (arg1 arg2 : Z) : M bool :=
  valid <- ((ret (arg2 >=? 0) &&&
               (lo <- c_add int32_t (numeric_min int32_t) arg2 ;; ret (arg1 >=? lo)))
            |||
            (ret (arg2 <? 0) &&&
               (hi <- c_add int32_t (numeric_max int32_t) arg2 ;; ret (arg1 <=? hi)))) ;;
  if valid : bool
  then (d <- c_sub int32_t arg1 arg2 ;; store d ;; ret true)
  else ret false.

(** [std::int32_t SafeInt32Sub(std::int32_t arg1, std::int32_t arg2)] *)
Definition SafeInt32Sub (arg1 arg2 : Z) : M Z :=
  with_local 0 (SafeInt32Sub_status arg1 arg2)
    (fun ok result =>
       (if negb ok then ThrowProgramError "Arithmetic overflow" else ret tt) ;;
       ret result).

(** [std::uint32_t SafeUint32Mult(std::uint32_t arg1, std::uint32_t arg2)] *)
Definition SafeUint32Mult (arg1 arg2 : Z) : M Z :=
  SafeUnsignedMult uint32_t arg1 arg2.

(** [std::uint32_t SafeUint32Mult(arg1, arg2, arg3)] *)
Definition SafeUint32Mult3 (arg1 arg2 arg3 : Z) : M Z :=
  p <- SafeUint32Mult arg1 arg2 ;; SafeUint32Mult p arg3.

(** [std::uint32_t SafeUint32Mult(arg1, arg2, arg3, arg4)] *)
Definition SafeUint32Mult4 (arg1 arg2 arg3 arg4 : Z) : M Z :=
  p <- SafeUint32Mult3 arg1 arg2 arg3 ;; SafeUint32Mult p arg4.

(** [bool SafeUint32Mult(arg1, arg2, std::uint32_t *result)] *)
Definition SafeUint32Mult_status (arg1 arg2 : Z) : M bool :=
  try_catch
    (v <- SafeUint32Mult arg1 arg2 ;; store v ;; ret true)
    (ret false).

(** [bool SafeUint32Mult(arg1, arg2, arg3, std::uint32_t *result)] *)
Definition SafeUint32Mult3_status (arg1 arg2 arg3 : Z) : M bool :=
  try_catch
    (v <- SafeUint32Mult3 arg1 arg2 arg3 ;; store v ;; ret true)
    (ret false).

(** [bool SafeUint32Mult(arg1, arg2, arg3, arg4, std::uint32_t *result)] *)
Definition SafeUint32Mult4_status (arg1 arg2 arg3 arg4 : Z) : M bool :=
  try_catch
    (v <- SafeUint32Mult4 arg1 arg2 arg3 arg4 ;; store v ;; ret true)
    (ret false).

(** [std::size_t SafeSizetMult(std::size_t arg1, std::size_t arg2)] *)
Definition SafeSizetMult (size_bits : positive) (arg1 arg2 : Z) : M Z :=
  SafeUnsignedMult (size_t size_bits) arg1 arg2.

(** The sign-quadrant analysis of [SafeInt64Mult]: the value the local
    [overflow] holds when the four branches are through (each of them
    assigns it, so its initial [true] is never read). *)
Definition Int64MultOverflow (arg1 arg2 : Z) : M bool :=
  if arg1 >? 0 then
    if arg2 >? 0
    then q <- c_div int64_t INT64_MAX arg2 ;; ret (arg1 >? q)
    else q <- c_div int64_t INT64_MIN arg1 ;; ret (arg2 <? q)
  else
    if arg2 >? 0
    then q <- c_div int64_t INT64_MIN arg2 ;; ret (arg1 <? q)
    else ret (negb (arg1 =? 0)) &&&
           (q <- c_div int64_t INT64_MAX arg1 ;; ret (arg2 <? q)).

(** [std::int64_t SafeInt64Mult(std::int64_t arg1, std::int64_t arg2)] *)
Definition SafeInt64Mult (arg1 arg2 : Z) : M Z :=
  overflow <- Int64MultOverflow arg1 arg2 ;;
  if overflow : bool
  then ThrowProgramError "Arithmetic overflow" ;; ret 0
  else c_mul int64_t arg1 arg2.

(** [std::uint32_t SafeUint32DivideUp(std::uint32_t arg1,
    std::uint32_t arg2)] *)
Definition SafeUint32DivideUp (arg1 arg2 : Z) : M Z :=
  if arg2 =? 0 then ThrowProgramError "Division by zero" ;; ret 0
  else if arg1 =? 0 then ret 0
  else
    a <- c_sub uint32_t arg1 1 ;;
    q <- c_div uint32_t a arg2 ;;
    c_add uint32_t q 1.

(** [bool RoundUpUint32ToMultiple(std::uint32_t val,
    std::uint32_t multiple_of, std::uint32_t *result)] *)
Definition RoundUpUint32ToMultiple (val multiple_of : Z) : M bool :=
  if multiple_of =? 0 then ret false
  else
    remainder <- c_rem uint32_t val multiple_of ;;
    if remainder =? 0
    then store val ;; ret true
    else d <- c_sub uint32_t multiple_of remainder ;;
         SafeUint32Add_status val d.

(** [bool ConvertUint32ToInt32(std::uint32_t val, std::int32_t *result)] *)
Definition ConvertUint32ToInt32 (val : Z) : M bool :=
  let kInt32MaxAsUint32 := static_cast uint32_t (numeric_max int32_t) in
  if val <=? kInt32MaxAsUint32
  then store (static_cast int32_t val) ;; ret true
  else ret false.

(** ** dng_safe_arithmetic.h *)

(** [template <class TSrc, class TDest>
    static void ConvertUnsigned(TSrc src, TDest *dest)];
    the [static_assert] asks for two unsigned integer types. *)
Definition ConvertUnsigned (TSrc TDest : IntType) (src : Z) : M unit :=
  let converted := static_cast TDest src in
  (if negb (static_cast TSrc converted =? src)
   then ThrowProgramError "Overflow in unsigned integer conversion"
   else ret tt) ;;
  store converted.

(** ** Reference notions the properties are stated with *)

Definition UINT32_MAX : Z := numeric_max uint32_t.
Definition INT32_MAX : Z := numeric_max int32_t.
Definition INT32_MIN : Z := numeric_min int32_t.

(** An empty machine to run examples on. *)
Definition fresh : Machine := MkMachine 0 [].

(** The bound check of each sign quadrant, as plain truncating
    quotients. *)
Definition quadrant_check (a b : Z) : bool :=
  if a >? 0 then
    if b >? 0 then a >? INT64_MAX ÷ b else b <? INT64_MIN ÷ a
  else
    if b >? 0 then a <? INT64_MIN ÷ b
    else negb (a =? 0) && (b <? INT64_MAX ÷ a).

(** [r] is the smallest multiple of [m] that is at least [val]. *)
Definition smallest_multiple_ge (m val r : Z) : Prop :=
  (m | r) /\ val <= r /\ forall r', (m | r') -> val <= r' -> r <= r'.

(** The two groupings of a product of three factors; the first is the
    body of [SafeUint32Mult3]. *)
Definition Multiply_left (a b c : Z) : M Z :=
  p <- SafeUint32Mult a b ;; SafeUint32Mult p c.

Definition Multiply_right (a b c : Z) : M Z :=
  p <- SafeUint32Mult b c ;; SafeUint32Mult a p.

Definition succeeds {A} (r : Outcome A * Machine) : Prop :=
  exists a, outcome r = Returns a.

(** A status form "implemented directly", in the words of the design:
    the range check of [SafeAdd] decides, the sum is stored on success,
    and nothing is raised on the way to [false]. *)
Definition SafeAdd_direct (T : IntType) (arg1 arg2 : Z) : M bool :=
  valid <- ((ret (arg1 >=? 0) &&&
               (hi <- c_sub T (numeric_max T) arg1 ;; ret (arg2 <=? hi)))
            |||
            (ret (arg1 <? 0) &&&
               (lo <- c_sub T (numeric_min T) arg1 ;; ret (arg2 >=? lo)))) ;;
  if valid : bool
  then (v <- c_add T arg1 arg2 ;; store v ;; ret true)
  else ret false.

(** Round-up-to-multiple over the direct addition. *)
Definition RoundUpUint32ToMultiple_direct (val multiple_of : Z) : M bool :=
  if multiple_of =? 0 then ret false
  else
    remainder <- c_rem uint32_t val multiple_of ;;
    if remainder =? 0
    then store val ;; ret true
    else d <- c_sub uint32_t multiple_of remainder ;;
         SafeAdd_direct uint32_t val d.

(** The run [r] of a result form from machine [m] computes [exact] in
    [T]: the exact value when it is a value of [T], the overflow
    condition otherwise. *)
Definition exact_or_overflow (T : IntType) (exact : Z)
    (r : Outcome Z * Machine) (m : Machine) : Prop :=
  (representable T exact -> r = (Returns exact, m)) /\
  (~ representable T exact ->
     r = (Throws "Arithmetic overflow", raised "Arithmetic overflow" m)).

(** The run [r] of a status form from machine [m] computes [exact] in
    [T]: [true] with the exact value stored when it is a value of [T],
    [false] with the slot as it was otherwise. *)
Definition stored_or_false (T : IntType) (exact : Z)
    (r : Outcome bool * Machine) (m : Machine) : Prop :=
  (representable T exact ->
     outcome r = Returns true /\ slot (final r) = exact) /\
  (~ representable T exact ->
     outcome r = Returns false /\ slot (final r) = slot m).

(** A computation that leaves the output slot alone. *)
Definition keeps_slot {A} (c : M A) : Prop :=
  forall m, slot (final (c m)) = slot m.

(** A computation that raises no condition, caught or not. *)
Definition silent {A} (c : M A) : Prop :=
  forall m, thrown (final (c m)) = thrown m.

(** A status form whose [false] comes with the slot as it was. *)
Definition failure_keeps_slot (c : M bool) : Prop :=
  forall m, outcome (c m) = Returns false -> slot (final (c m)) = slot m.

(** A throwing form whose raised condition comes with the slot as it
    was. *)
Definition raise_keeps_slot {A} (c : M A) : Prop :=
  forall m what, outcome (c m) = Throws what -> slot (final (c m)) = slot m.

(** Two runs the caller cannot tell apart by status and slot. *)
Definition same_result (r r' : Outcome bool * Machine) : Prop :=
  outcome r = outcome r' /\ slot (final r) = slot (final r').

(** A computation no run of which evaluates an undefined operation;
    and the case of a zero divisor alone. *)
Definition never_undefined {A} (c : M A) : Prop :=
  forall m why, outcome (c m) <> Undefined why.

Definition never_divides_by_zero {A} (c : M A) : Prop :=
  forall m, outcome (c m) <> Undefined DivisionByZero.

(** The formula the comment in [SafeUint32DivideUp] sets aside,
    [arg2 == 0 ? 0 : (arg1 + arg2 - 1) / arg2], computed in
    [uint32_t] as it would be. *)
Definition naive_divide_up (arg1 arg2 : Z) : M Z :=
  if arg2 =? 0 then ret 0
  else
    s <- c_add uint32_t arg1 arg2 ;;
    t <- c_sub uint32_t s 1 ;;
    c_div uint32_t t arg2.

(** Rounding up by way of the ceiling division: the checked product
    [SafeUint32Mult(SafeUint32DivideUp(val, multiple_of), multiple_of)]
    behind a status form. *)
Definition round_up_by_division (val multiple_of : Z) : M bool :=
  try_catch
    (q <- SafeUint32DivideUp val multiple_of ;;
     v <- SafeUint32Mult q multiple_of ;;
     store v ;; ret true)
    (ret false).

(** A run that ends in a status, [true] or [false]. *)
Definition returns_status (r : Outcome bool * Machine) : Prop :=
  exists ok : bool, outcome r = Returns ok.

(** Case analysis on the comparisons a goal branches on. *)
Ltac split_tests :=
  repeat match goal with
    | |- context [?a <=? ?b] => destruct (Z.leb_spec a b)
    | |- context [?a <? ?b] => destruct (Z.ltb_spec a b)
    | |- context [?a >=? ?b] => rewrite (Z.geb_leb a b)
    | |- context [?a >? ?b] => rewrite (Z.gtb_ltb a b)
    | |- context [?a =? ?b] => destruct (Z.eqb_spec a b)
    end.

(** Unfolding of the monad's plumbing. *)
Ltac run :=
  unfold ThrowProgramError, try_catch, with_local, store, bind, ret, undefined,
    outcome, final, raised in *; cbn [fst snd slot thrown negb andb orb] in *.

(** ** Facts about the integer types *)

Section TypeFacts.

Variable T : IntType.

Lemma half_modulus_pos : 0 < half_modulus T.
Proof. unfold half_modulus. apply Z.pow_pos_nonneg; lia. Qed.

Lemma modulus_double : modulus T = 2 * half_modulus T.
Proof.
  unfold modulus, half_modulus.
  rewrite <- Z.pow_succ_r by lia. f_equal. lia.
Qed.

Lemma modulus_pos : 0 < modulus T.
Proof. rewrite modulus_double. pose proof half_modulus_pos. lia. Qed.

Lemma fits_representable z : fits T z = true <-> representable T z.
Proof. unfold fits, representable. rewrite andb_true_iff, !Z.leb_le. tauto. Qed.

Lemma fits_not_representable z : fits T z = false <-> ~ representable T z.
Proof. rewrite <- fits_representable. destruct (fits T z); intuition congruence. Qed.

Lemma numeric_min_max : numeric_min T <= 0 <= numeric_max T.
Proof.
  unfold numeric_min, numeric_max.
  pose proof half_modulus_pos. pose proof modulus_pos.
  destruct (is_signed T); lia.
Qed.

(** A cast of a value of [T] to [T] is the identity. *)
Lemma static_cast_representable z : representable T z -> static_cast T z = z.
Proof.
  unfold representable, static_cast, numeric_min, numeric_max.
  pose proof half_modulus_pos. pose proof modulus_double.
  destruct (is_signed T); intros Hz.
  - rewrite Z.mod_small by lia. lia.
  - apply Z.mod_small. lia.
Qed.

End TypeFacts.

Lemma unsigned_bounds T :
  is_signed T = false -> numeric_min T = 0 /\ numeric_max T = modulus T - 1.
Proof. intros U. unfold numeric_min, numeric_max. rewrite U. split; reflexivity. Qed.

(** ** Checked addition *)

Section Addition.

Variable T : IntType.

(** The range test of [SafeAdd], evaluated without wrap-around or
    overflow, says whether the exact sum is a value of [T]. *)
Lemma SafeAdd_range_test a b m :
  representable T a -> representable T b ->
  ((ret (a >=? 0) &&&
      (hi <- c_sub T (numeric_max T) a ;; ret (b <=? hi)))
   |||
   (ret (a <? 0) &&&
      (lo <- c_sub T (numeric_min T) a ;; ret (b >=? lo)))) m
  = (Returns (fits T (a + b)), m).
Proof.
  unfold representable, c_sub, wrap_or_overflow, fits, numeric_min, numeric_max.
  pose proof (half_modulus_pos T) as Hh. pose proof (modulus_double T) as Hm.
  destruct (is_signed T); intros Ha Hb; run.
  - split_tests; cbn [andb]; run; split_tests; cbn [andb]; run;
      split_tests; cbn [andb] in *; try reflexivity; try lia.
  - rewrite (Z.mod_small (modulus T - 1 - a)) by lia.
    split_tests; cbn [andb]; run; try reflexivity; try lia.
Qed.

Lemma c_add_representable a b m :
  fits T (a + b) = true -> c_add T a b m = (Returns (a + b), m).
Proof.
  intros F. unfold c_add, wrap_or_overflow. rewrite F.
  destruct (is_signed T) eqn:S; [reflexivity |].
  apply fits_representable in F. unfold representable in F.
  destruct (unsigned_bounds T S) as [E0 E1]. rewrite E0, E1 in F.
  unfold ret. rewrite Z.mod_small by lia. reflexivity.
Qed.

(** [SafeAdd] returns the exact sum when it is a value of [T] and
    raises otherwise; no undefined operation is evaluated on the way. *)
Lemma SafeAdd_spec a b m :
  representable T a -> representable T b ->
  SafeAdd T a b m =
    if fits T (a + b)
    then (Returns (a + b), m)
    else (Throws "Arithmetic overflow", raised "Arithmetic overflow" m).
Proof.
  intros Ha Hb. unfold SafeAdd, bind at 1.
  rewrite SafeAdd_range_test by assumption.
  destruct (fits T (a + b)) eqn:F; [| reflexivity].
  now apply c_add_representable.
Qed.

(** The direct status form stores the exact sum or returns [false]
    with the machine as it was. *)
Lemma SafeAdd_direct_spec a b m :
  representable T a -> representable T b ->
  SafeAdd_direct T a b m =
    if fits T (a + b)
    then (Returns true, MkMachine (a + b) (thrown m))
    else (Returns false, m).
Proof.
  intros Ha Hb. unfold SafeAdd_direct, bind at 1.
  rewrite SafeAdd_range_test by assumption.
  destruct (fits T (a + b)) eqn:F; [| reflexivity].
  unfold bind at 1. rewrite c_add_representable by assumption. reflexivity.
Qed.

End Addition.

(** Success of a run that is exact-or-overflow says that the exact
    value is representable. *)
Lemma exact_or_overflow_succeeds T e r m :
  exact_or_overflow T e r m -> (succeeds r <-> representable T e).
Proof.
  intros [Hok Hko]. split.
  - intros [z Hz]. destruct (fits T e) eqn:E.
    + now apply fits_representable.
    + apply fits_not_representable in E. rewrite (Hko E) in Hz. discriminate.
  - intros He. exists e. now rewrite (Hok He).
Qed.

Lemma stored_or_false_succeeds T e r m :
  stored_or_false T e r m -> (outcome r = Returns true <-> representable T e).
Proof.
  intros [Hok Hko]. split.
  - intros Hz. destruct (fits T e) eqn:E.
    + now apply fits_representable.
    + apply fits_not_representable in E. destruct (Hko E) as [H _].
      rewrite H in Hz. discriminate.
  - intros He. now destruct (Hok He).
Qed.

Lemma exact_or_overflow_of_fits T e (r : Outcome Z * Machine) m :
  r = (if fits T e then (Returns e, m)
       else (Throws "Arithmetic overflow", raised "Arithmetic overflow" m)) ->
  exact_or_overflow T e r m.
Proof.
  intros ->. destruct (fits T e) eqn:E.
  - apply fits_representable in E. split; [reflexivity | contradiction].
  - apply fits_not_representable in E. split; [contradiction | reflexivity].
Qed.

Lemma SafeAdd_exact_or_overflow T a b m :
  representable T a -> representable T b ->
  exact_or_overflow T (a + b) (SafeAdd T a b m) m.
Proof.
  intros Ha Hb. rewrite SafeAdd_spec by assumption.
  destruct (fits T (a + b)) eqn:E.
  - apply fits_representable in E. split; [reflexivity | contradiction].
  - apply fits_not_representable in E. split; [contradiction | reflexivity].
Qed.

(** The status forms of addition wrap the result form: what it
    returns is stored, what it raises becomes [false]. *)
Lemma Add_status_spec T a b m :
  representable T a -> representable T b ->
  try_catch (v <- SafeAdd T a b ;; store v ;; ret true) (ret false) m =
    if fits T (a + b)
    then (Returns true, MkMachine (a + b) (thrown m))
    else (Returns false, raised "Arithmetic overflow" m).
Proof.
  intros Ha Hb. unfold try_catch, bind at 1.
  rewrite SafeAdd_spec by assumption.
  destruct (fits T (a + b)); reflexivity.
Qed.

Lemma Add_status_stored_or_false T a b m :
  representable T a -> representable T b ->
  stored_or_false T (a + b)
    (try_catch (v <- SafeAdd T a b ;; store v ;; ret true) (ret false) m) m.
Proof.
  intros Ha Hb. rewrite Add_status_spec by assumption.
  destruct (fits T (a + b)) eqn:E.
  - apply fits_representable in E. split; [intros _; split; reflexivity | contradiction].
  - apply fits_not_representable in E. split; [contradiction | intros _; split; reflexivity].
Qed.

(** C2. Checked addition in [int32_t], [uint32_t] and [int64_t]: the
    result forms return the exact sum [a + b] when it is a value of
    the type and raise the overflow condition otherwise; the status
    forms return [true] with the exact sum stored in the same case and
    [false] otherwise.  Success is therefore equivalent to the sum
    being representable. *)
Theorem checked_addition_exact (a b u v x y : Z) (m : Machine) :
  representable int32_t a -> representable int32_t b ->
  representable uint32_t u -> representable uint32_t v ->
  representable int64_t x -> representable int64_t y ->
  exact_or_overflow int32_t (a + b) (SafeInt32Add a b m) m /\
  stored_or_false int32_t (a + b) (SafeInt32Add_status a b m) m /\
  exact_or_overflow uint32_t (u + v) (SafeUint32Add u v m) m /\
  stored_or_false uint32_t (u + v) (SafeUint32Add_status u v m) m /\
  exact_or_overflow int64_t (x + y) (SafeInt64Add x y m) m /\
  (succeeds (SafeInt32Add a b m) <-> representable int32_t (a + b)) /\
  (succeeds (SafeUint32Add u v m) <-> representable uint32_t (u + v)) /\
  (succeeds (SafeInt64Add x y m) <-> representable int64_t (x + y)) /\
  (outcome (SafeInt32Add_status a b m) = Returns true
     <-> representable int32_t (a + b)) /\
  (outcome (SafeUint32Add_status u v m) = Returns true
     <-> representable uint32_t (u + v)).
Proof.
  intros Ha Hb Hu Hv Hx Hy.
  pose proof (SafeAdd_exact_or_overflow int32_t a b m Ha Hb) as A32.
  pose proof (SafeAdd_exact_or_overflow uint32_t u v m Hu Hv) as U32.
  pose proof (SafeAdd_exact_or_overflow int64_t x y m Hx Hy) as A64.
  pose proof (Add_status_stored_or_false int32_t a b m Ha Hb) as S32.
  pose proof (Add_status_stored_or_false uint32_t u v m Hu Hv) as SU32.
  exact (conj A32 (conj S32 (conj U32 (conj SU32 (conj A64
          (conj (exact_or_overflow_succeeds _ _ _ _ A32)
          (conj (exact_or_overflow_succeeds _ _ _ _ U32)
          (conj (exact_or_overflow_succeeds _ _ _ _ A64)
          (conj (stored_or_false_succeeds _ _ _ _ S32)
                (stored_or_false_succeeds _ _ _ _ SU32)))))))))).
Qed.

Lemma checked_addition_exact_witness :
  (representable int32_t 2147483647 /\ representable int32_t 1 /\
   representable uint32_t 4294967295 /\ representable uint32_t 1 /\
   representable int64_t (-5) /\ representable int64_t 7) /\
  SafeInt32Add 2147483647 1 fresh =
    (Throws "Arithmetic overflow", raised "Arithmetic overflow" fresh) /\
  SafeUint32Add 4294967295 1 fresh =
    (Throws "Arithmetic overflow", raised "Arithmetic overflow" fresh) /\
  SafeInt64Add (-5) 7 fresh = (Returns 2, fresh).
Proof.
  assert (R : representable int32_t 2147483647 /\ representable int32_t 1 /\
              representable uint32_t 4294967295 /\ representable uint32_t 1 /\
              representable int64_t (-5) /\ representable int64_t 7).
  { repeat split; vm_compute; discriminate. }
  split; [exact R |].
  destruct R as (Ha & Hb & Hu & Hv & Hx & Hy).
  destruct (checked_addition_exact 2147483647 1 4294967295 1 (-5) 7 fresh
              Ha Hb Hu Hv Hx Hy)
    as ([_ A] & _ & [_ U] & _ & [X _] & _).
  split; [| split].
  - apply A. vm_compute. intros [_ H]. now apply H.
  - apply U. vm_compute. intros [_ H]. now apply H.
  - apply X. split; vm_compute; discriminate.
Defined.

(** ** Checked unsigned multiplication *)

Section UnsignedMultiplication.

Variable T : IntType.
Hypothesis T_unsigned : is_signed T = false.

(** The division-based test: for [0 < a], [b <= max ÷ a] says that the
    product does not exceed [max]. *)
Lemma quot_test_nonneg max a b :
  0 <= max -> 0 < a -> (b <= max ÷ a <-> a * b <= max).
Proof.
  intros Hmax Ha.
  pose proof (Z.quot_rem' max a) as E.
  pose proof (Z.rem_bound_pos max a Hmax Ha) as R.
  split; intros H; nia.
Qed.

Lemma SafeUnsignedMult_spec a b m :
  representable T a -> representable T b ->
  SafeUnsignedMult T a b m =
    if fits T (a * b)
    then (Returns (a * b), m)
    else (Throws "Arithmetic overflow", raised "Arithmetic overflow" m).
Proof.
  unfold representable, fits, SafeUnsignedMult, c_mul, c_div, wrap_or_overflow.
  destruct (unsigned_bounds T T_unsigned) as [-> ->]. rewrite T_unsigned.
  pose proof (modulus_pos T) as Hm. intros Ha Hb. cbn [andb]. run.
  destruct (Z.eqb_spec a 0) as [-> | Hnz].
  - rewrite Z.mul_0_l, Z.mod_0_l by lia.
    split_tests; try lia. reflexivity.
  - pose proof (quot_test_nonneg (modulus T - 1) a b) as Q.
    assert (0 <= a * b) by nia.
    split_tests; cbn [andb]; try lia.
    + rewrite Z.mod_small by lia. reflexivity.
    + reflexivity.
Qed.

Lemma SafeUnsignedMult_exact_or_overflow a b m :
  representable T a -> representable T b ->
  exact_or_overflow T (a * b) (SafeUnsignedMult T a b m) m.
Proof.
  intros Ha Hb. rewrite SafeUnsignedMult_spec by assumption.
  destruct (fits T (a * b)) eqn:E.
  - apply fits_representable in E. split; [reflexivity | contradiction].
  - apply fits_not_representable in E. split; [contradiction | reflexivity].
Qed.

(** The shape of the test itself: a zero first factor gives zero, and
    otherwise the condition is raised exactly when [b > max / a]. *)
Lemma SafeUnsignedMult_test a b m :
  representable T a -> representable T b ->
  (a = 0 -> SafeUnsignedMult T a b m = (Returns 0, m)) /\
  (a <> 0 ->
     (outcome (SafeUnsignedMult T a b m) = Throws "Arithmetic overflow"
      <-> b > numeric_max T / a)).
Proof.
  intros Ha Hb. rewrite SafeUnsignedMult_spec by assumption.
  pose proof Ha as Ha'. pose proof Hb as Hb'.
  unfold representable, fits in *. destruct (unsigned_bounds T T_unsigned) as [E0 E1].
  rewrite E0, E1 in *. pose proof (modulus_pos T) as Hm.
  split.
  - intros ->. rewrite Z.mul_0_l. split_tests; try lia. reflexivity.
  - intros Hnz.
    pose proof (quot_test_nonneg (modulus T - 1) a b) as Q.
    rewrite Z.quot_div_nonneg in Q by lia.
    assert (0 <= a * b) by nia.
    split_tests; cbn [andb]; run; try lia.
    + split; [discriminate | lia].
    + split; [lia | reflexivity].
Qed.

End UnsignedMultiplication.

(** C3. Binary checked unsigned multiplication, in [uint32_t]
    ([SafeUint32Mult]) and in the platform's [size_t] of any width
    ([SafeSizetMult]): it returns the exact product when that is a
    value of the type and raises the overflow condition otherwise, so
    it succeeds exactly when the product is representable.  A zero
    first factor gives 0; for a non-zero one the condition is raised
    exactly when [b > MAX / a].  [4294967295 * 2] fails and
    [0 * 4294967295] is 0, in the result form and in the status form. *)
Theorem unsigned_multiplication_exact
    (size_bits : positive) (a b x y : Z) (m : Machine) :
  representable uint32_t a -> representable uint32_t b ->
  representable (size_t size_bits) x -> representable (size_t size_bits) y ->
  exact_or_overflow uint32_t (a * b) (SafeUint32Mult a b m) m /\
  exact_or_overflow (size_t size_bits) (x * y) (SafeSizetMult size_bits x y m) m /\
  (succeeds (SafeUint32Mult a b m) <-> representable uint32_t (a * b)) /\
  (succeeds (SafeSizetMult size_bits x y m)
     <-> representable (size_t size_bits) (x * y)) /\
  (a = 0 -> SafeUint32Mult a b m = (Returns 0, m)) /\
  (a <> 0 ->
     (outcome (SafeUint32Mult a b m) = Throws "Arithmetic overflow"
      <-> b > UINT32_MAX / a)) /\
  (x = 0 -> SafeSizetMult size_bits x y m = (Returns 0, m)) /\
  (x <> 0 ->
     (outcome (SafeSizetMult size_bits x y m) = Throws "Arithmetic overflow"
      <-> y > numeric_max (size_t size_bits) / x)) /\
  SafeUint32Mult 4294967295 2 m =
    (Throws "Arithmetic overflow", raised "Arithmetic overflow" m) /\
  SafeUint32Mult 0 4294967295 m = (Returns 0, m) /\
  SafeUint32Mult_status 4294967295 2 m =
    (Returns false, raised "Arithmetic overflow" m) /\
  SafeUint32Mult_status 0 4294967295 m =
    (Returns true, MkMachine 0 (thrown m)).
Proof.
  intros Ha Hb Hx Hy.
  pose proof (SafeUnsignedMult_exact_or_overflow uint32_t eq_refl a b m Ha Hb) as A.
  pose proof (SafeUnsignedMult_exact_or_overflow (size_t size_bits) eq_refl
                x y m Hx Hy) as X.
  destruct (SafeUnsignedMult_test uint32_t eq_refl a b m Ha Hb) as [A0 A1].
  destruct (SafeUnsignedMult_test (size_t size_bits) eq_refl x y m Hx Hy)
    as [X0 X1].
  assert (R1 : representable uint32_t 4294967295) by (split; vm_compute; discriminate).
  assert (R2 : representable uint32_t 2) by (split; vm_compute; discriminate).
  assert (R0 : representable uint32_t 0) by (split; vm_compute; discriminate).
  assert (C1 : SafeUint32Mult 4294967295 2 m =
                 (Throws "Arithmetic overflow", raised "Arithmetic overflow" m)).
  { unfold SafeUint32Mult.
    rewrite (SafeUnsignedMult_spec uint32_t eq_refl _ _ m R1 R2). reflexivity. }
  assert (C2 : SafeUint32Mult 0 4294967295 m = (Returns 0, m)).
  { unfold SafeUint32Mult.
    rewrite (SafeUnsignedMult_spec uint32_t eq_refl _ _ m R0 R1). reflexivity. }
  split; [exact A |]. split; [exact X |].
  split; [exact (exact_or_overflow_succeeds _ _ _ _ A) |].
  split; [exact (exact_or_overflow_succeeds _ _ _ _ X) |].
  split; [exact A0 |]. split; [exact A1 |].
  split; [exact X0 |]. split; [exact X1 |].
  split; [exact C1 |]. split; [exact C2 |].
  unfold SafeUint32Mult_status, try_catch, bind at 1 3.
  rewrite C1, C2. split; reflexivity.
Qed.

Lemma unsigned_multiplication_exact_witness :
  (representable uint32_t 65536 /\ representable uint32_t 65535 /\
   representable (size_t 64) 4294967296 /\
   representable (size_t 64) 4294967296) /\
  SafeUint32Mult 65536 65535 fresh = (Returns 4294901760, fresh) /\
  SafeSizetMult 64 4294967296 4294967296 fresh =
    (Throws "Arithmetic overflow", raised "Arithmetic overflow" fresh).
Proof.
  assert (R : representable uint32_t 65536 /\ representable uint32_t 65535 /\
              representable (size_t 64) 4294967296 /\
              representable (size_t 64) 4294967296).
  { split; [| split; [| split]]; split; vm_compute; discriminate. }
  split; [exact R |].
  destruct R as (Ha & Hb & Hx & Hy).
  destruct (unsigned_multiplication_exact 64 65536 65535 4294967296 4294967296
              fresh Ha Hb Hx Hy) as ([A _] & [_ X] & _).
  split.
  - apply A. split; vm_compute; discriminate.
  - apply X. vm_compute. intros [_ H]. now apply H.
Defined.

(** ** Checked signed 64-bit multiplication *)

Section QuotientTests.

(** The three bound checks by truncating division, for a bound [min <= 0]
    and a bound [0 <= max]. *)
Variables min max : Z.
Hypothesis min_nonpos : min <= 0.
Hypothesis max_nonneg : 0 <= max.

Lemma quot_test_above a b : 0 < b -> (a > max ÷ b <-> a * b > max).
Proof.
  intros Hb.
  pose proof (Z.quot_rem' max b) as E.
  pose proof (Z.rem_bound_pos max b max_nonneg Hb) as R.
  split; intros H; nia.
Qed.

Lemma quot_test_below a b : 0 < a -> (b < min ÷ a <-> a * b < min).
Proof.
  intros Ha.
  pose proof (Z.quot_rem' min a) as E.
  pose proof (Z.rem_bound_pos_neg min a Ha min_nonpos) as R.
  split; intros H; nia.
Qed.

Lemma quot_test_above_neg a b : a < 0 -> (b < max ÷ a <-> a * b > max).
Proof.
  intros Ha.
  pose proof (Z.quot_rem' max a) as E.
  pose proof (Z.rem_bound_neg_pos max a Ha max_nonneg) as R.
  split; intros H; nia.
Qed.

End QuotientTests.

Lemma int64_bounds : INT64_MIN = - INT64_MAX - 1 /\ 0 < INT64_MAX.
Proof. split; reflexivity. Qed.

(** A signed 64-bit division is defined once the divisor is not zero
    and the quotient is not [INT64_MIN / -1]. *)
Lemma c_div_int64_defined n d m :
  d <> 0 -> (n <> INT64_MIN \/ d <> -1) ->
  c_div int64_t n d m = (Returns (n ÷ d), m).
Proof.
  intros Hd Hq. unfold c_div.
  destruct (Z.eqb_spec d 0) as [? | _]; [contradiction |].
  change (numeric_min int64_t) with INT64_MIN. cbn [is_signed int64_t andb].
  destruct (Z.eqb_spec n INT64_MIN), (Z.eqb_spec d (-1)); cbn [andb];
    try reflexivity.
  exfalso. destruct Hq; contradiction.
Qed.

(** The quadrant analysis evaluates one defined division per branch. *)
Lemma Int64MultOverflow_runs a b m :
  Int64MultOverflow a b m = (Returns (quadrant_check a b), m).
Proof.
  destruct int64_bounds as [Emin Hmax].
  unfold Int64MultOverflow, quadrant_check. rewrite !Z.gtb_ltb.
  destruct (Z.ltb_spec 0 a), (Z.ltb_spec 0 b); run.
  - rewrite c_div_int64_defined by lia. now rewrite Z.gtb_ltb.
  - rewrite c_div_int64_defined by lia. reflexivity.
  - rewrite c_div_int64_defined by lia. reflexivity.
  - destruct (Z.eqb_spec a 0); cbn [negb andb]; [reflexivity |].
    rewrite c_div_int64_defined by lia. reflexivity.
Qed.

(** ... and it decides whether the exact product leaves the type. *)
Lemma quadrant_check_decides a b :
  quadrant_check a b = negb (fits int64_t (a * b)).
Proof.
  unfold fits, quadrant_check.
  change (numeric_min int64_t) with INT64_MIN.
  change (numeric_max int64_t) with INT64_MAX.
  destruct int64_bounds as [Emin Hmax].
  set (MAX := INT64_MAX) in *. set (MIN := INT64_MIN) in *.
  clearbody MAX MIN.
  assert (Hmin : MIN <= 0) by lia. assert (Hmax' : 0 <= MAX) by lia.
  rewrite !Z.gtb_ltb.
  destruct (Z.ltb_spec 0 a) as [Pa | Na], (Z.ltb_spec 0 b) as [Pb | Nb].
  - pose proof (quot_test_above MAX Hmax' a b Pb) as Q.
    assert (0 < a * b) by nia.
    destruct (Z.ltb_spec (MAX ÷ b) a), (Z.leb_spec MIN (a * b)),
      (Z.leb_spec (a * b) MAX); cbn [andb negb]; try reflexivity; lia.
  - pose proof (quot_test_below MIN Hmin a b Pa) as Q.
    assert (a * b <= 0) by nia.
    destruct (Z.ltb_spec b (MIN ÷ a)), (Z.leb_spec MIN (a * b)),
      (Z.leb_spec (a * b) MAX); cbn [andb negb]; try reflexivity; lia.
  - pose proof (quot_test_below MIN Hmin b a Pb) as Q.
    assert (a * b <= 0) by nia.
    rewrite (Z.mul_comm b a) in Q.
    destruct (Z.ltb_spec a (MIN ÷ b)), (Z.leb_spec MIN (a * b)),
      (Z.leb_spec (a * b) MAX); cbn [andb negb]; try reflexivity; lia.
  - assert (0 <= a * b) by nia.
    destruct (Z.eqb_spec a 0) as [-> | Hnz]; cbn [negb andb].
    + rewrite Z.mul_0_l.
      destruct (Z.leb_spec MIN 0), (Z.leb_spec 0 MAX); cbn [andb negb];
        try reflexivity; lia.
    + pose proof (quot_test_above_neg MAX Hmax' a b ltac:(lia)) as Q.
      destruct (Z.ltb_spec b (MAX ÷ a)), (Z.leb_spec MIN (a * b)),
        (Z.leb_spec (a * b) MAX); cbn [andb negb]; try reflexivity; lia.
Qed.

Lemma SafeInt64Mult_spec a b m :
  SafeInt64Mult a b m =
    if fits int64_t (a * b)
    then (Returns (a * b), m)
    else (Throws "Arithmetic overflow", raised "Arithmetic overflow" m).
Proof.
  unfold SafeInt64Mult, bind at 1.
  rewrite Int64MultOverflow_runs, quadrant_check_decides.
  unfold c_mul, wrap_or_overflow. cbn [is_signed int64_t].
  destruct (fits int64_t (a * b)); reflexivity.
Qed.

(** C1. For 64-bit signed operands [SafeInt64Mult] returns the exact
    product when it is a value of [int64_t] and raises the overflow
    condition otherwise.  The sign-quadrant analysis evaluates the one
    bound check of its quadrant, each a defined division (no zero
    divisor, no [INT64_MIN / -1]), and its verdict is "the product is
    not representable"; no run ends in undefined behaviour. *)
Theorem SafeInt64Mult_exact (a b : Z) (m : Machine) :
  representable int64_t a -> representable int64_t b ->
  exact_or_overflow int64_t (a * b) (SafeInt64Mult a b m) m /\
  (succeeds (SafeInt64Mult a b m) <-> representable int64_t (a * b)) /\
  Int64MultOverflow a b m = (Returns (quadrant_check a b), m) /\
  (quadrant_check a b = true <-> ~ representable int64_t (a * b)) /\
  (forall why, outcome (SafeInt64Mult a b m) <> Undefined why).
Proof.
  intros Ha Hb.
  assert (E : exact_or_overflow int64_t (a * b) (SafeInt64Mult a b m) m).
  { apply exact_or_overflow_of_fits. now apply SafeInt64Mult_spec. }
  split; [exact E |].
  split; [exact (exact_or_overflow_succeeds _ _ _ _ E) |].
  split; [apply Int64MultOverflow_runs |].
  split.
  - rewrite quadrant_check_decides.
    rewrite <- fits_not_representable.
    destruct (fits int64_t (a * b)); cbn [negb]; intuition congruence.
  - intros why. rewrite SafeInt64Mult_spec.
    destruct (fits int64_t (a * b)); discriminate.
Qed.

Lemma SafeInt64Mult_exact_witness :
  (representable int64_t (-1) /\ representable int64_t INT64_MIN) /\
  SafeInt64Mult (-1) INT64_MIN fresh =
    (Throws "Arithmetic overflow", raised "Arithmetic overflow" fresh) /\
  SafeInt64Mult INT64_MIN 1 fresh = (Returns INT64_MIN, fresh).
Proof.
  assert (R1 : representable int64_t (-1)) by (split; vm_compute; discriminate).
  assert (R2 : representable int64_t INT64_MIN) by (split; vm_compute; discriminate).
  assert (R3 : representable int64_t 1) by (split; vm_compute; discriminate).
  split; [exact (conj R1 R2) |]. split.
  - destruct (SafeInt64Mult_exact (-1) INT64_MIN fresh R1 R2) as ([_ H] & _).
    apply H. vm_compute. intros [_ K]. now apply K.
  - destruct (SafeInt64Mult_exact INT64_MIN 1 fresh R2 R3) as ([H _] & _).
    apply H. split; vm_compute; discriminate.
Defined.

(** ** Ceiling division *)

Lemma uint32_bounds :
  numeric_min uint32_t = 0 /\ numeric_max uint32_t = modulus uint32_t - 1 /\
  0 < modulus uint32_t.
Proof. repeat split. Qed.

Lemma SafeUint32DivideUp_spec a b m :
  representable uint32_t a -> representable uint32_t b -> 0 < b ->
  SafeUint32DivideUp a b m = (Returns ((a + b - 1) / b), m) /\
  0 <= (a + b - 1) / b <= a.
Proof.
  unfold representable. destruct uint32_bounds as (-> & -> & Hm).
  intros Ha Hb Hpos.
  unfold SafeUint32DivideUp, c_sub, c_div, c_add, wrap_or_overflow.
  cbn [is_signed uint32_t andb].
  destruct (Z.eqb_spec b 0) as [? | _]; [lia |].
  destruct (Z.eqb_spec a 0) as [-> | Hnz].
  - rewrite Z.div_small by lia. split; [reflexivity | lia].
  - replace (a + b - 1) with (a - 1 + 1 * b) by lia.
    rewrite Z.div_add by lia.
    assert (0 <= (a - 1) / b <= a - 1).
    { split; [apply Z.div_pos; lia |].
      apply Z.div_le_upper_bound; nia. }
    split; [| lia]. run.
    rewrite (Z.mod_small (a - 1)) by lia.
    destruct (Z.eqb_spec b 0) as [? | _]; [lia |].
    rewrite Z.quot_div_nonneg by lia.
    rewrite Z.mod_small by lia. reflexivity.
Qed.

(** C4. For [uint32_t] operands with [b > 0], [SafeUint32DivideUp]
    returns the ceiling [r] of [a / b]: [r * b >= a], and
    [(r - 1) * b < a] when [r > 0]; [r] is a [uint32_t] value computed
    without wrap-around.  A zero dividend gives 0, and a zero divisor
    raises the division-by-zero condition for every [a]. *)
Theorem SafeUint32DivideUp_ceiling (a b : Z) (m : Machine) :
  representable uint32_t a -> representable uint32_t b ->
  (0 < b ->
     exists r,
       SafeUint32DivideUp a b m = (Returns r, m) /\
       representable uint32_t r /\
       r * b >= a /\
       (r > 0 -> (r - 1) * b < a)) /\
  (0 < b -> SafeUint32DivideUp 0 b m = (Returns 0, m)) /\
  SafeUint32DivideUp a 0 m =
    (Throws "Division by zero", raised "Division by zero" m).
Proof.
  intros Ha Hb. split; [| split].
  - intros Hpos.
    destruct (SafeUint32DivideUp_spec a b m Ha Hb Hpos) as [E B].
    exists ((a + b - 1) / b). split; [exact E |].
    pose proof (Z.div_mod (a + b - 1) b ltac:(lia)) as D.
    pose proof (Z.mod_pos_bound (a + b - 1) b Hpos) as R.
    unfold representable in *. destruct uint32_bounds as (E0 & E1 & _).
    rewrite E0, E1 in *.
    split; [lia |]. split; [nia |]. intros _. nia.
  - intros Hpos.
    assert (R0 : representable uint32_t 0) by (split; vm_compute; discriminate).
    destruct (SafeUint32DivideUp_spec 0 b m R0 Hb Hpos) as [E _].
    rewrite E. rewrite Z.div_small by lia. reflexivity.
  - reflexivity.
Qed.

Lemma SafeUint32DivideUp_ceiling_witness :
  (representable uint32_t 10 /\ representable uint32_t 3) /\
  exists r, SafeUint32DivideUp 10 3 fresh = (Returns r, fresh) /\
            r * 3 >= 10 /\ (r - 1) * 3 < 10.
Proof.
  assert (R1 : representable uint32_t 10) by (split; vm_compute; discriminate).
  assert (R2 : representable uint32_t 3) by (split; vm_compute; discriminate).
  split; [exact (conj R1 R2) |].
  destruct (SafeUint32DivideUp_ceiling 10 3 fresh R1 R2) as (H & _).
  destruct (H ltac:(lia)) as (r & E & _ & Hge & Hlt).
  exists r. split; [exact E |]. split; [exact Hge |].
  apply Hlt. lia.
Defined.

(** ** Round-up to a multiple *)

(** The next multiple: [val] itself when the remainder is zero, and
    [val + (m - val mod m)] otherwise. *)
Lemma next_multiple_smallest m val :
  0 <= val -> 0 < m ->
  smallest_multiple_ge m val
    (if val mod m =? 0 then val else val + (m - val mod m)).
Proof.
  intros Hval Hm.
  pose proof (Z.div_mod val m ltac:(lia)) as D.
  pose proof (Z.mod_pos_bound val m Hm) as R.
  destruct (Z.eqb_spec (val mod m) 0) as [E | E].
  - split; [| split].
    + exists (val / m). lia.
    + lia.
    + intros r' _ Hr'. exact Hr'.
  - split; [| split].
    + exists (val / m + 1). lia.
    + lia.
    + intros r' [k ->] Hr'.
      assert (val / m < k) by nia. nia.
Qed.

Lemma RoundUpUint32ToMultiple_spec val multiple_of m :
  representable uint32_t val -> representable uint32_t multiple_of ->
  0 < multiple_of ->
  RoundUpUint32ToMultiple val multiple_of m =
    let r := if val mod multiple_of =? 0 then val
             else val + (multiple_of - val mod multiple_of) in
    if r <=? UINT32_MAX
    then (Returns true, MkMachine r (thrown m))
    else (Returns false, raised "Arithmetic overflow" m).
Proof.
  intros Hval Hmul Hpos. cbv zeta.
  pose proof Hval as Hval'. pose proof Hmul as Hmul'.
  unfold representable in Hval', Hmul'.
  destruct uint32_bounds as (E0 & E1 & Hm). rewrite E0, E1 in *.
  pose proof (Z.mod_pos_bound val multiple_of Hpos) as R.
  unfold RoundUpUint32ToMultiple.
  destruct (Z.eqb_spec multiple_of 0) as [? | _]; [lia |].
  unfold bind at 1. unfold c_rem.
  destruct (Z.eqb_spec multiple_of 0) as [? | _]; [lia |].
  cbn [is_signed uint32_t andb]. unfold ret at 1.
  rewrite Z.rem_mod_nonneg by lia.
  destruct (Z.eqb_spec (val mod multiple_of) 0) as [Ez | Enz].
  - unfold UINT32_MAX. rewrite E1.
    destruct (Z.leb_spec val (modulus uint32_t - 1)); [reflexivity | lia].
  - unfold bind at 1, c_sub, wrap_or_overflow. cbn [is_signed uint32_t].
    unfold ret at 1. rewrite Z.mod_small by lia.
    unfold SafeUint32Add_status, SafeUint32Add.
    rewrite Add_status_spec.
    + unfold fits, UINT32_MAX. rewrite E0, E1.
      destruct (Z.leb_spec 0 (val + (multiple_of - val mod multiple_of)));
        [reflexivity | lia].
    + exact Hval.
    + unfold representable. rewrite E0, E1. lia.
Qed.

(** C5, as the code has it.  For [uint32_t] operands with
    [multiple_of > 0] there is a smallest multiple [r] of [multiple_of]
    that is at least [val]; [RoundUpUint32ToMultiple] returns [true]
    and stores [r] exactly when [r] is a [uint32_t] value, and returns
    [false], the slot as it was, when [r] exceeds [UINT32_MAX].  For
    [multiple_of = 0] it returns [false]. *)
Theorem RoundUpUint32ToMultiple_smallest (val multiple_of : Z) (m : Machine) :
  representable uint32_t val -> representable uint32_t multiple_of ->
  (0 < multiple_of ->
     exists r,
       smallest_multiple_ge multiple_of val r /\
       (r <= UINT32_MAX ->
          RoundUpUint32ToMultiple val multiple_of m =
            (Returns true, MkMachine r (thrown m))) /\
       (UINT32_MAX < r ->
          outcome (RoundUpUint32ToMultiple val multiple_of m) = Returns false /\
          slot (final (RoundUpUint32ToMultiple val multiple_of m)) = slot m)) /\
  RoundUpUint32ToMultiple val 0 m = (Returns false, m).
Proof.
  intros Hval Hmul. split; [| reflexivity].
  intros Hpos.
  pose proof (RoundUpUint32ToMultiple_spec val multiple_of m Hval Hmul Hpos) as E.
  cbv zeta in E.
  exists (if val mod multiple_of =? 0 then val
          else val + (multiple_of - val mod multiple_of)).
  split.
  - apply next_multiple_smallest; [| exact Hpos].
    destruct Hval as [H _]. exact H.
  - rewrite E. split; intros H.
    + apply Z.leb_le in H. rewrite H. reflexivity.
    + apply Z.leb_gt in H. rewrite H. split; reflexivity.
Qed.

Lemma RoundUpUint32ToMultiple_smallest_witness :
  (representable uint32_t 10 /\ representable uint32_t 4) /\
  exists r, smallest_multiple_ge 4 10 r /\
            RoundUpUint32ToMultiple 10 4 fresh = (Returns true, MkMachine r []).
Proof.
  assert (R1 : representable uint32_t 10) by (split; vm_compute; discriminate).
  assert (R2 : representable uint32_t 4) by (split; vm_compute; discriminate).
  split; [exact (conj R1 R2) |].
  destruct (RoundUpUint32ToMultiple_smallest 10 4 fresh R1 R2) as (H & _).
  destruct (H ltac:(lia)) as (r & Hr & Hok & _).
  exists r. split; [exact Hr |].
  apply Hok. destruct Hr as (_ & _ & Hmin).
  apply (Z.le_trans _ 12); [| vm_compute; discriminate].
  apply Hmin; [exists 3; reflexivity | lia].
Defined.

(** C5 as stated fails: the smallest multiple of 2 above [UINT32_MAX]
    does not fit, and the call returns [false] for a non-zero
    [multiple_of]. *)
Lemma RoundUpUint32ToMultiple_counterexample :
  representable uint32_t 4294967295 /\ representable uint32_t 2 /\ 0 < 2 /\
  RoundUpUint32ToMultiple 4294967295 2 fresh =
    (Returns false, raised "Arithmetic overflow" fresh).
Proof.
  split; [split; vm_compute; discriminate |].
  split; [split; vm_compute; discriminate |].
  split; [lia | reflexivity].
Qed.

(** ** Chained multiplication *)

Lemma SafeUint32Mult_spec a b m :
  representable uint32_t a -> representable uint32_t b ->
  SafeUint32Mult a b m =
    if a * b <=? UINT32_MAX
    then (Returns (a * b), m)
    else (Throws "Arithmetic overflow", raised "Arithmetic overflow" m).
Proof.
  intros Ha Hb. unfold SafeUint32Mult.
  rewrite (SafeUnsignedMult_spec uint32_t eq_refl a b m Ha Hb).
  unfold fits, representable in *. destruct uint32_bounds as (E0 & _).
  rewrite E0 in *.
  destruct (Z.leb_spec 0 (a * b)); [reflexivity | nia].
Qed.

Lemma Multiply_left_spec a b c m :
  representable uint32_t a -> representable uint32_t b ->
  representable uint32_t c ->
  Multiply_left a b c m =
    if (a * b <=? UINT32_MAX) && (a * b * c <=? UINT32_MAX)
    then (Returns (a * b * c), m)
    else (Throws "Arithmetic overflow", raised "Arithmetic overflow" m).
Proof.
  intros Ha Hb Hc. unfold Multiply_left, bind.
  rewrite SafeUint32Mult_spec by assumption.
  destruct (Z.leb_spec (a * b) UINT32_MAX) as [Hab | Hab]; [| reflexivity].
  cbn [andb]. apply SafeUint32Mult_spec; [| exact Hc].
  unfold representable in *. destruct uint32_bounds as (E0 & _).
  rewrite E0 in *. unfold UINT32_MAX in Hab. nia.
Qed.

Lemma Multiply_right_spec a b c m :
  representable uint32_t a -> representable uint32_t b ->
  representable uint32_t c ->
  Multiply_right a b c m =
    if (b * c <=? UINT32_MAX) && (a * b * c <=? UINT32_MAX)
    then (Returns (a * b * c), m)
    else (Throws "Arithmetic overflow", raised "Arithmetic overflow" m).
Proof.
  intros Ha Hb Hc. unfold Multiply_right, bind.
  rewrite SafeUint32Mult_spec by assumption.
  destruct (Z.leb_spec (b * c) UINT32_MAX) as [Hbc | Hbc]; [| reflexivity].
  cbn [andb]. rewrite <- (Z.mul_assoc a b c). rewrite SafeUint32Mult_spec.
  - reflexivity.
  - exact Ha.
  - unfold representable in *. destruct uint32_bounds as (E0 & _).
    rewrite E0 in *. unfold UINT32_MAX in Hbc. nia.
Qed.

Lemma succeeds_Returns {A} (a : A) m : succeeds (Returns a, m).
Proof. exists a. reflexivity. Qed.

Lemma succeeds_Throws {A} what m : ~ succeeds (@Throws A what, m).
Proof. intros [a H]. discriminate. Qed.

(** C6, as the code has it.  For [uint32_t] operands, the two
    groupings [Multiply(Multiply(a,b),c)] and [Multiply(a,Multiply(b,c))]
    produce the same result, the exact product, whenever both succeed.
    They agree on success or failure except in two cases: [c = 0] while
    [a * b] overflows (the left grouping fails, the right one gives 0),
    and [a = 0] while [b * c] overflows (the left one gives 0, the
    right one fails); in particular they agree whenever [a] and [c] are
    not zero. *)
Theorem chained_multiplication_groupings (a b c : Z) (m : Machine) :
  representable uint32_t a -> representable uint32_t b ->
  representable uint32_t c ->
  (forall r r',
     outcome (Multiply_left a b c m) = Returns r ->
     outcome (Multiply_right a b c m) = Returns r' ->
     r = r' /\ r = a * b * c) /\
  ((succeeds (Multiply_left a b c m) <-> succeeds (Multiply_right a b c m))
   <-> ~ (c = 0 /\ UINT32_MAX < a * b) /\ ~ (a = 0 /\ UINT32_MAX < b * c)) /\
  (a <> 0 -> c <> 0 ->
   (succeeds (Multiply_left a b c m) <-> succeeds (Multiply_right a b c m))).
Proof.
  intros Ha Hb Hc.
  rewrite Multiply_left_spec, Multiply_right_spec by assumption.
  unfold representable in *. destruct uint32_bounds as (E0 & E1 & Hm).
  rewrite E0 in *. fold UINT32_MAX in *.
  assert (HM : 0 <= UINT32_MAX) by lia.
  set (MAX := UINT32_MAX) in *. clearbody MAX. clear E1 Hm E0.
  assert (Hab : 0 <= a * b) by nia. assert (Hbc : 0 <= b * c) by nia.
  assert (Habc : a * b * c = a * (b * c)) by ring.
  destruct (Z.leb_spec (a * b) MAX) as [L1 | L1],
           (Z.leb_spec (b * c) MAX) as [L2 | L2],
           (Z.leb_spec (a * b * c) MAX) as [L3 | L3]; cbn [andb]; run.
  all: split; [intros r r' H1 H2; try discriminate;
               injection H1 as <-; injection H2 as <-; split; reflexivity |].
  all: pose proof (@succeeds_Returns Z (a * b * c) m) as SR;
       pose proof (@succeeds_Throws Z "Arithmetic overflow"
                     (raised "Arithmetic overflow" m)) as ST; run.
  all: assert (A1 : c = 0 /\ MAX < a * b \/ ~ (c = 0 /\ MAX < a * b)) by lia.
  all: assert (A2 : a = 0 /\ MAX < b * c \/ ~ (a = 0 /\ MAX < b * c)) by lia.
  all: assert (A3 : a * b * c <= MAX -> MAX < a * b -> c = 0) by nia.
  all: assert (A4 : a * b * c <= MAX -> MAX < b * c -> a = 0) by nia.
  all: assert (A5 : a <> 0 -> MAX < a * b * c -> MAX < b * c \/ c <> 0) by nia.
  all: assert (A6 : c = 0 -> a * b * c = 0) by nia.
  all: assert (A7 : a = 0 -> a * b * c = 0) by nia.
  all: assert (A8 : a = 0 -> a * b = 0) by nia.
  all: assert (A9 : c = 0 -> b * c = 0) by nia.
  all: intuition lia.
Qed.

Lemma chained_multiplication_groupings_witness :
  (representable uint32_t 3 /\ representable uint32_t 5 /\
   representable uint32_t 7) /\
  (forall r r',
     outcome (Multiply_left 3 5 7 fresh) = Returns r ->
     outcome (Multiply_right 3 5 7 fresh) = Returns r' ->
     r = r' /\ r = 3 * 5 * 7) /\
  (succeeds (Multiply_left 3 5 7 fresh) <-> succeeds (Multiply_right 3 5 7 fresh)).
Proof.
  assert (R1 : representable uint32_t 3) by (split; vm_compute; discriminate).
  assert (R2 : representable uint32_t 5) by (split; vm_compute; discriminate).
  assert (R3 : representable uint32_t 7) by (split; vm_compute; discriminate).
  split; [exact (conj R1 (conj R2 R3)) |].
  destruct (chained_multiplication_groupings 3 5 7 fresh R1 R2 R3) as (H1 & _ & H3).
  split; [exact H1 |]. apply H3; discriminate.
Defined.

(** C6 as stated fails: with [c = 0] the left grouping overflows in
    [a * b] while the right grouping multiplies by zero first. *)
Lemma chained_multiplication_counterexample :
  (representable uint32_t 65536 /\ representable uint32_t 0) /\
  Multiply_left 65536 65536 0 fresh =
    (Throws "Arithmetic overflow", raised "Arithmetic overflow" fresh) /\
  Multiply_right 65536 65536 0 fresh = (Returns 0, fresh) /\
  ~ (succeeds (Multiply_left 65536 65536 0 fresh)
     <-> succeeds (Multiply_right 65536 65536 0 fresh)).
Proof.
  split; [split; split; vm_compute; discriminate |].
  split; [reflexivity |]. split; [reflexivity |].
  intros [_ H].
  destruct (H (succeeds_Returns 0 fresh)) as [z Hz]. discriminate.
Qed.

(** ** Conversions *)

Section UnsignedConversion.

Variables TSrc TDest : IntType.
Hypothesis TSrc_unsigned : is_signed TSrc = false.
Hypothesis TDest_unsigned : is_signed TDest = false.

(** Casting to [TDest] and back gives the value again exactly for the
    values of [TSrc] that [TDest] has as well. *)
Lemma round_trip_iff x :
  representable TSrc x ->
  (static_cast TSrc (static_cast TDest x) = x <-> representable TDest x).
Proof.
  unfold representable, static_cast.
  destruct (unsigned_bounds TSrc TSrc_unsigned) as [-> ->].
  destruct (unsigned_bounds TDest TDest_unsigned) as [-> ->].
  rewrite TSrc_unsigned, TDest_unsigned.
  pose proof (modulus_pos TSrc) as Hs. pose proof (modulus_pos TDest) as Hd.
  intros Hx. split.
  - intros E.
    pose proof (Z.mod_pos_bound x (modulus TDest) Hd) as B.
    pose proof (Z.mod_le (x mod modulus TDest) (modulus TSrc) ltac:(lia) Hs).
    lia.
  - intros H. rewrite (Z.mod_small x (modulus TDest)) by lia.
    apply Z.mod_small. lia.
Qed.

Lemma ConvertUnsigned_spec src m :
  ConvertUnsigned TSrc TDest src m =
    if static_cast TSrc (static_cast TDest src) =? src
    then (Returns tt, MkMachine (static_cast TDest src) (thrown m))
    else (Throws "Overflow in unsigned integer conversion",
          raised "Overflow in unsigned integer conversion" m).
Proof.
  unfold ConvertUnsigned. cbv zeta. run.
  destruct (static_cast TSrc (static_cast TDest src) =? src); reflexivity.
Qed.

End UnsignedConversion.

(** C7. For unsigned types [TSrc] and [TDest] and a value [x] of
    [TSrc]: when [ConvertUnsigned] succeeds, casting the stored
    [TDest] value back to [TSrc] gives [x], and the stored value is [x]
    itself; the truncation condition is raised exactly when the
    round-tripped value differs from [x], which is exactly when [x] is
    not a value of [TDest]. *)
Theorem ConvertUnsigned_round_trip (TSrc TDest : IntType) (x : Z) (m : Machine) :
  is_signed TSrc = false -> is_signed TDest = false ->
  representable TSrc x ->
  (outcome (ConvertUnsigned TSrc TDest x m) = Returns tt ->
     static_cast TSrc (slot (final (ConvertUnsigned TSrc TDest x m))) = x /\
     slot (final (ConvertUnsigned TSrc TDest x m)) = x) /\
  (outcome (ConvertUnsigned TSrc TDest x m)
     = Throws "Overflow in unsigned integer conversion"
   <-> static_cast TSrc (static_cast TDest x) <> x) /\
  (outcome (ConvertUnsigned TSrc TDest x m)
     = Throws "Overflow in unsigned integer conversion"
   <-> ~ representable TDest x) /\
  (outcome (ConvertUnsigned TSrc TDest x m) = Returns tt
   <-> representable TDest x).
Proof.
  intros Hs Hd Hx.
  pose proof (round_trip_iff TSrc TDest Hs Hd x Hx) as RT.
  rewrite ConvertUnsigned_spec.
  destruct (Z.eqb_spec (static_cast TSrc (static_cast TDest x)) x) as [E | E];
    run.
  - assert (R : representable TDest x) by (apply RT; exact E).
    split; [| split; [| split]].
    + intros _. split; [exact E |].
      now apply static_cast_representable.
    + split; [discriminate | contradiction].
    + split; [discriminate | contradiction].
    + split; [intros _; exact R | reflexivity].
  - assert (R : ~ representable TDest x) by (intros R; apply E, RT, R).
    split; [| split; [| split]].
    + discriminate.
    + split; [intros _; exact E | reflexivity].
    + split; [intros _; exact R | reflexivity].
    + split; [discriminate | contradiction].
Qed.

Lemma ConvertUnsigned_round_trip_witness :
  (is_signed (size_t 64) = false /\ is_signed uint32_t = false /\
   representable (size_t 64) 4294967296) /\
  outcome (ConvertUnsigned (size_t 64) uint32_t 4294967296 fresh)
    = Throws "Overflow in unsigned integer conversion".
Proof.
  assert (R : representable (size_t 64) 4294967296)
    by (split; vm_compute; discriminate).
  split; [exact (conj eq_refl (conj eq_refl R)) |].
  destruct (ConvertUnsigned_round_trip (size_t 64) uint32_t 4294967296 fresh
              eq_refl eq_refl R) as (_ & _ & [_ H] & _).
  apply H. vm_compute. intros [_ K]. now apply K.
Defined.

(** ** The output slot on failure *)

Lemma keeps_slot_ret {A} (a : A) : keeps_slot (ret a).
Proof. intros m. reflexivity. Qed.

Lemma keeps_slot_undefined {A} why : keeps_slot (@undefined A why).
Proof. intros m. reflexivity. Qed.

Lemma keeps_slot_throw msg : keeps_slot (ThrowProgramError msg).
Proof. intros m. reflexivity. Qed.

Lemma keeps_slot_bind {A B} (c : M A) (k : A -> M B) :
  keeps_slot c -> (forall a, keeps_slot (k a)) -> keeps_slot (bind c k).
Proof.
  intros Hc Hk m. specialize (Hc m). unfold bind, final in *.
  destruct (c m) as [[a | what | why] m']; cbn [snd] in *.
  - rewrite <- Hc. apply Hk.
  - exact Hc.
  - exact Hc.
Qed.

Lemma keeps_slot_wrap T z : keeps_slot (wrap_or_overflow T z).
Proof.
  unfold wrap_or_overflow.
  destruct (is_signed T), (fits T z); intros m; reflexivity.
Qed.

Lemma keeps_slot_div T n d : keeps_slot (c_div T n d).
Proof.
  unfold c_div.
  destruct (d =? 0), (is_signed T && (n =? numeric_min T) && (d =? -1));
    intros m; reflexivity.
Qed.

(** The result forms compute and raise; they have no access to the
    slot. *)
Ltac keeps_slot_steps :=
  repeat first
    [ apply keeps_slot_ret
    | apply keeps_slot_undefined
    | apply keeps_slot_throw
    | apply keeps_slot_wrap
    | apply keeps_slot_div
    | apply keeps_slot_bind; [| intros ?]
    | match goal with
      | |- keeps_slot (if ?b then _ else _) => destruct b
      end ].

Lemma keeps_slot_SafeAdd T a b : keeps_slot (SafeAdd T a b).
Proof. unfold SafeAdd, c_add, c_sub. keeps_slot_steps. Qed.

Lemma keeps_slot_SafeUnsignedMult T a b : keeps_slot (SafeUnsignedMult T a b).
Proof. unfold SafeUnsignedMult, c_mul. keeps_slot_steps. Qed.

Lemma keeps_slot_SafeUint32Mult3 a b c : keeps_slot (SafeUint32Mult3 a b c).
Proof.
  unfold SafeUint32Mult3, SafeUint32Mult.
  apply keeps_slot_bind; [| intros ?]; apply keeps_slot_SafeUnsignedMult.
Qed.

Lemma keeps_slot_SafeUint32Mult4 a b c d : keeps_slot (SafeUint32Mult4 a b c d).
Proof.
  unfold SafeUint32Mult4.
  apply keeps_slot_bind; [apply keeps_slot_SafeUint32Mult3 | intros ?].
  apply keeps_slot_SafeUnsignedMult.
Qed.

(** A status form that wraps a result form: [false] is the caught
    condition, raised before the assignment to [*result]. *)
Lemma status_wrapper_frame (F : M Z) :
  keeps_slot F ->
  failure_keeps_slot (try_catch (v <- F ;; store v ;; ret true) (ret false)).
Proof.
  intros HF m. specialize (HF m). unfold try_catch, bind, final, outcome in *.
  destruct (F m) as [[v | what | why] m']; cbn [fst snd] in *.
  - discriminate.
  - intros _. exact HF.
  - discriminate.
Qed.

Lemma SafeInt32Sub_status_frame a b : failure_keeps_slot (SafeInt32Sub_status a b).
Proof.
  intros m. unfold SafeInt32Sub_status, c_add, c_sub, wrap_or_overflow.
  cbn [is_signed int32_t]. run.
  repeat match goal with
    | |- context [if ?c then _ else _] => destruct c; cbn [fst snd slot]
    end; try discriminate; reflexivity.
Qed.

(** The run of [RoundUpUint32ToMultiple], branch by branch: the
    remainder and the difference are unsigned operations with a
    non-zero divisor, and the last branch is the status form of the
    addition. *)
Lemma RoundUpUint32ToMultiple_run val multiple_of m :
  RoundUpUint32ToMultiple val multiple_of m =
    if multiple_of =? 0 then (Returns false, m)
    else if Z.rem val multiple_of =? 0
         then (Returns true, MkMachine val (thrown m))
         else SafeUint32Add_status val
                ((multiple_of - Z.rem val multiple_of) mod modulus uint32_t) m.
Proof.
  unfold RoundUpUint32ToMultiple, c_rem, c_sub, wrap_or_overflow.
  cbn [is_signed uint32_t andb].
  destruct (multiple_of =? 0); [reflexivity |].
  unfold bind at 1, ret at 1.
  destruct (Z.rem val multiple_of =? 0); reflexivity.
Qed.

Lemma RoundUpUint32ToMultiple_frame val multiple_of :
  failure_keeps_slot (RoundUpUint32ToMultiple val multiple_of).
Proof.
  intros m. rewrite RoundUpUint32ToMultiple_run.
  destruct (multiple_of =? 0); [reflexivity |].
  destruct (Z.rem val multiple_of =? 0); [discriminate |].
  exact (status_wrapper_frame _ (keeps_slot_SafeAdd uint32_t _ _) m).
Qed.

Lemma ConvertUint32ToInt32_frame val : failure_keeps_slot (ConvertUint32ToInt32 val).
Proof.
  intros m. unfold ConvertUint32ToInt32. cbv zeta.
  destruct (val <=? _); [discriminate | reflexivity].
Qed.

Lemma ConvertUnsigned_frame TSrc TDest src :
  raise_keeps_slot (ConvertUnsigned TSrc TDest src).
Proof.
  intros m what. rewrite ConvertUnsigned_spec.
  destruct (_ =? src); [discriminate | reflexivity].
Qed.

(** C8. Each status form ([SafeInt32Add], [SafeUint32Add],
    [SafeInt32Sub], the three [SafeUint32Mult] overloads,
    [RoundUpUint32ToMultiple], [ConvertUint32ToInt32]) that returns
    [false] leaves the output slot at the value it held on entry, and
    [ConvertUnsigned] leaves [*dest] at its value when it raises. *)
Theorem failure_leaves_output_untouched
    (TSrc TDest : IntType) (a b c d : Z) :
  failure_keeps_slot (SafeInt32Add_status a b) /\
  failure_keeps_slot (SafeUint32Add_status a b) /\
  failure_keeps_slot (SafeInt32Sub_status a b) /\
  failure_keeps_slot (SafeUint32Mult_status a b) /\
  failure_keeps_slot (SafeUint32Mult3_status a b c) /\
  failure_keeps_slot (SafeUint32Mult4_status a b c d) /\
  failure_keeps_slot (RoundUpUint32ToMultiple a b) /\
  failure_keeps_slot (ConvertUint32ToInt32 a) /\
  raise_keeps_slot (ConvertUnsigned TSrc TDest a).
Proof.
  split; [apply status_wrapper_frame, keeps_slot_SafeAdd |].
  split; [apply status_wrapper_frame, keeps_slot_SafeAdd |].
  split; [apply SafeInt32Sub_status_frame |].
  split; [apply status_wrapper_frame, keeps_slot_SafeUnsignedMult |].
  split; [apply status_wrapper_frame, keeps_slot_SafeUint32Mult3 |].
  split; [apply status_wrapper_frame, keeps_slot_SafeUint32Mult4 |].
  split; [apply RoundUpUint32ToMultiple_frame |].
  split; [apply ConvertUint32ToInt32_frame |].
  apply ConvertUnsigned_frame.
Qed.

Lemma failure_leaves_output_untouched_witness :
  (outcome (SafeInt32Sub_status (-2147483648) 1 (MkMachine 42 [])) = Returns false /\
   outcome (SafeUint32Mult4_status 65536 256 256 2 (MkMachine 42 []))
     = Returns false /\
   outcome (ConvertUnsigned (size_t 64) uint32_t 4294967296 (MkMachine 42 []))
     = Throws "Overflow in unsigned integer conversion") /\
  slot (final (SafeInt32Sub_status (-2147483648) 1 (MkMachine 42 []))) = 42 /\
  slot (final (SafeUint32Mult4_status 65536 256 256 2 (MkMachine 42 []))) = 42 /\
  slot (final (ConvertUnsigned (size_t 64) uint32_t 4294967296 (MkMachine 42 [])))
    = 42.
Proof.
  destruct (failure_leaves_output_untouched (size_t 64) uint32_t
              (-2147483648) 1 0 0) as (_ & _ & Hsub & _).
  destruct (failure_leaves_output_untouched (size_t 64) uint32_t
              65536 256 256 2) as (_ & _ & _ & _ & _ & Hmul & _).
  destruct (failure_leaves_output_untouched (size_t 64) uint32_t
              4294967296 0 0 0) as (_ & _ & _ & _ & _ & _ & _ & _ & Hconv).
  split; [split; [reflexivity | split; reflexivity] |].
  split; [apply (Hsub (MkMachine 42 [])); reflexivity |].
  split; [apply (Hmul (MkMachine 42 [])); reflexivity |].
  apply (Hconv (MkMachine 42 []) "Overflow in unsigned integer conversion").
  reflexivity.
Defined.

(** ** Direct checks and catch-and-convert wrappers *)

Lemma silent_SafeInt32Sub_status a b : silent (SafeInt32Sub_status a b).
Proof.
  intros m. unfold SafeInt32Sub_status, c_add, c_sub, wrap_or_overflow.
  cbn [is_signed int32_t]. run.
  repeat match goal with
    | |- context [if ?c then _ else _] => destruct c; cbn [fst snd thrown]
    end; reflexivity.
Qed.

Lemma RoundUpUint32ToMultiple_direct_run val multiple_of m :
  RoundUpUint32ToMultiple_direct val multiple_of m =
    if multiple_of =? 0 then (Returns false, m)
    else if Z.rem val multiple_of =? 0
         then (Returns true, MkMachine val (thrown m))
         else SafeAdd_direct uint32_t val
                ((multiple_of - Z.rem val multiple_of) mod modulus uint32_t) m.
Proof.
  unfold RoundUpUint32ToMultiple_direct, c_rem, c_sub, wrap_or_overflow.
  cbn [is_signed uint32_t andb].
  destruct (multiple_of =? 0); [reflexivity |].
  unfold bind at 1, ret at 1.
  destruct (Z.rem val multiple_of =? 0); reflexivity.
Qed.

Lemma representable_uint32_mod z : representable uint32_t (z mod modulus uint32_t).
Proof.
  unfold representable. destruct uint32_bounds as (-> & -> & Hm).
  pose proof (Z.mod_pos_bound z (modulus uint32_t) Hm). lia.
Qed.

(** An addition status form against the direct check: the same status
    and slot, and one condition raised and caught on the way to
    [false]. *)
Lemma Add_status_wraps T a b m :
  representable T a -> representable T b ->
  let wrapped := try_catch (v <- SafeAdd T a b ;; store v ;; ret true) (ret false) in
  same_result (wrapped m) (SafeAdd_direct T a b m) /\
  (outcome (wrapped m) = Returns false ->
     thrown (final (wrapped m)) = "Arithmetic overflow" :: thrown m) /\
  (outcome (wrapped m) = Returns true ->
     thrown (final (wrapped m)) = thrown m) /\
  thrown (final (SafeAdd_direct T a b m)) = thrown m.
Proof.
  intros Ha Hb. cbv zeta.
  rewrite Add_status_spec, SafeAdd_direct_spec by assumption.
  destruct (fits T (a + b)); unfold same_result; run.
  - split; [split; reflexivity |]. split; [discriminate |].
    split; reflexivity.
  - split; [split; reflexivity |]. split; [reflexivity |].
    split; [discriminate | reflexivity].
Qed.

(** C9, as the code has it.  The status form of subtraction makes its
    range check directly and raises nothing.  The status forms of
    addition are catch-and-convert wrappers around the result form: to
    the caller they are the direct check (same status, same slot), but
    their [false] is a condition that was raised and caught.
    [RoundUpUint32ToMultiple] tests [multiple_of == 0] directly and
    hands the rest to the status form of the addition, so its overflow
    is a caught condition as well. *)
Theorem status_forms_direct_or_wrapped (a b u v : Z) (m : Machine) :
  representable int32_t a -> representable int32_t b ->
  representable uint32_t u -> representable uint32_t v ->
  thrown (final (SafeInt32Sub_status a b m)) = thrown m /\
  same_result (SafeInt32Add_status a b m) (SafeAdd_direct int32_t a b m) /\
  same_result (SafeUint32Add_status u v m) (SafeAdd_direct uint32_t u v m) /\
  same_result (RoundUpUint32ToMultiple u v m)
              (RoundUpUint32ToMultiple_direct u v m) /\
  (outcome (SafeInt32Add_status a b m) = Returns false ->
     thrown (final (SafeInt32Add_status a b m))
       = "Arithmetic overflow" :: thrown m) /\
  (outcome (SafeUint32Add_status u v m) = Returns false ->
     thrown (final (SafeUint32Add_status u v m))
       = "Arithmetic overflow" :: thrown m) /\
  (outcome (RoundUpUint32ToMultiple u v m) = Returns false -> v <> 0 ->
     thrown (final (RoundUpUint32ToMultiple u v m))
       = "Arithmetic overflow" :: thrown m) /\
  thrown (final (RoundUpUint32ToMultiple u 0 m)) = thrown m /\
  thrown (final (SafeAdd_direct int32_t a b m)) = thrown m /\
  thrown (final (SafeAdd_direct uint32_t u v m)) = thrown m.
Proof.
  intros Ha Hb Hu Hv.
  destruct (Add_status_wraps int32_t a b m Ha Hb) as (S1 & F1 & _ & D1).
  destruct (Add_status_wraps uint32_t u v m Hu Hv) as (S2 & F2 & _ & D2).
  cbv zeta in *.
  split; [apply silent_SafeInt32Sub_status |].
  split; [exact S1 |]. split; [exact S2 |].
  assert (R : same_result (RoundUpUint32ToMultiple u v m)
                (RoundUpUint32ToMultiple_direct u v m) /\
              (outcome (RoundUpUint32ToMultiple u v m) = Returns false ->
               v <> 0 ->
               thrown (final (RoundUpUint32ToMultiple u v m))
                 = "Arithmetic overflow" :: thrown m)).
  { rewrite RoundUpUint32ToMultiple_run, RoundUpUint32ToMultiple_direct_run.
    destruct (Z.eqb_spec v 0) as [E | E].
    - split; [split; reflexivity | intros _ H; contradiction].
    - destruct (Z.rem u v =? 0).
      + split; [split; reflexivity | discriminate].
      + destruct (Add_status_wraps uint32_t u _ m Hu
                    (representable_uint32_mod (v - Z.rem u v)))
          as (S3 & F3 & _).
        cbv zeta in *. split; [exact S3 |]. intros H _. exact (F3 H). }
  destruct R as [R1 R2].
  split; [exact R1 |]. split; [exact F1 |]. split; [exact F2 |].
  split; [exact R2 |]. split; [reflexivity |]. split; [exact D1 | exact D2].
Qed.

Lemma status_forms_direct_or_wrapped_witness :
  (representable int32_t 2147483647 /\ representable int32_t 1 /\
   representable uint32_t 4294967295 /\ representable uint32_t 2) /\
  thrown (final (SafeInt32Sub_status 2147483647 1 fresh)) = [] /\
  thrown (final (SafeInt32Add_status 2147483647 1 fresh))
    = ["Arithmetic overflow"] /\
  thrown (final (RoundUpUint32ToMultiple 4294967295 2 fresh))
    = ["Arithmetic overflow"].
Proof.
  assert (R1 : representable int32_t 2147483647) by (split; vm_compute; discriminate).
  assert (R2 : representable int32_t 1) by (split; vm_compute; discriminate).
  assert (R3 : representable uint32_t 4294967295) by (split; vm_compute; discriminate).
  assert (R4 : representable uint32_t 2) by (split; vm_compute; discriminate).
  split; [exact (conj R1 (conj R2 (conj R3 R4))) |].
  destruct (status_forms_direct_or_wrapped 2147483647 1 4294967295 2 fresh
              R1 R2 R3 R4) as (Hsub & _ & _ & _ & Hadd & _ & Hround & _).
  split; [exact Hsub |].
  split; [apply Hadd; reflexivity |].
  apply Hround; [reflexivity | discriminate].
Defined.

(** C9 as stated fails for addition: on overflow the status form of
    [SafeInt32Add] has gone through the raising form, where the direct
    check raises nothing. *)
Lemma status_addition_counterexample :
  (representable int32_t 2147483647 /\ representable int32_t 1) /\
  thrown (final (SafeInt32Add_status 2147483647 1 fresh))
    = ["Arithmetic overflow"] /\
  thrown (final (SafeAdd_direct int32_t 2147483647 1 fresh)) = [] /\
  SafeInt32Add_status 2147483647 1 fresh
    <> SafeAdd_direct int32_t 2147483647 1 fresh.
Proof.
  split; [split; split; vm_compute; discriminate |].
  split; [reflexivity |]. split; [reflexivity |].
  intros H. apply (f_equal (fun r => thrown (final r))) in H.
  vm_compute in H. discriminate.
Qed.

(** ** No division by zero *)

(** A division or remainder is undefined for a zero divisor, and for
    that reason on a zero divisor only. *)
Lemma c_div_by_zero T n d m :
  outcome (c_div T n d m) = Undefined DivisionByZero <-> d = 0.
Proof.
  unfold c_div. destruct (Z.eqb_spec d 0) as [E | E].
  - split; [intros _; exact E | reflexivity].
  - destruct (is_signed T && (n =? numeric_min T) && (d =? -1));
      split; (discriminate || contradiction).
Qed.

Lemma c_rem_by_zero T n d m :
  outcome (c_rem T n d m) = Undefined DivisionByZero <-> d = 0.
Proof.
  unfold c_rem. destruct (Z.eqb_spec d 0) as [E | E].
  - split; [intros _; exact E | reflexivity].
  - destruct (is_signed T && (n =? numeric_min T) && (d =? -1));
      split; (discriminate || contradiction).
Qed.

Lemma never_undefined_no_div0 {A} (c : M A) :
  never_undefined c -> never_divides_by_zero c.
Proof. intros H m. apply H. Qed.

Lemma never_undefined_bind {A B} (c : M A) (k : A -> M B) :
  never_undefined c -> (forall a, never_undefined (k a)) ->
  never_undefined (bind c k).
Proof.
  intros Hc Hk m why. specialize (Hc m). unfold bind, outcome in *.
  destruct (c m) as [[a | what | u] m']; cbn [fst] in *.
  - apply Hk.
  - discriminate.
  - exfalso. now apply (Hc u).
Qed.

Lemma never_undefined_try_catch {A} (body handler : M A) :
  never_undefined body -> never_undefined handler ->
  never_undefined (try_catch body handler).
Proof.
  intros Hb Hh m why. specialize (Hb m). unfold try_catch, outcome in *.
  destruct (body m) as [[a | what | u] m']; cbn [fst] in *.
  - discriminate.
  - apply Hh.
  - exfalso. now apply (Hb u).
Qed.

Lemma no_div0_bind {A B} (c : M A) (k : A -> M B) :
  never_divides_by_zero c -> (forall a, never_divides_by_zero (k a)) ->
  never_divides_by_zero (bind c k).
Proof.
  intros Hc Hk m. specialize (Hc m). unfold bind, outcome in *.
  destruct (c m) as [[a | what | u] m']; cbn [fst] in *.
  - apply Hk.
  - discriminate.
  - intros E. apply Hc. injection E as ->. reflexivity.
Qed.

Lemma no_div0_try_catch {A} (body handler : M A) :
  never_divides_by_zero body -> never_divides_by_zero handler ->
  never_divides_by_zero (try_catch body handler).
Proof.
  intros Hb Hh m. specialize (Hb m). unfold try_catch, outcome in *.
  destruct (body m) as [[a | what | u] m']; cbn [fst] in *.
  - discriminate.
  - apply Hh.
  - intros E. apply Hb. injection E as ->. reflexivity.
Qed.

Lemma no_div0_with_local {A B} init (body : M A) (k : A -> Z -> M B) :
  never_divides_by_zero body -> (forall a z, never_divides_by_zero (k a z)) ->
  never_divides_by_zero (with_local init body k).
Proof.
  intros Hb Hk m. specialize (Hb (MkMachine init (thrown m))).
  unfold with_local, outcome in *.
  destruct (body _) as [[a | what | u] m']; cbn [fst] in *.
  - apply Hk.
  - discriminate.
  - intros E. apply Hb. injection E as ->. reflexivity.
Qed.

Lemma no_div0_wrap T z : never_divides_by_zero (wrap_or_overflow T z).
Proof.
  unfold wrap_or_overflow.
  destruct (is_signed T), (fits T z); intros m; discriminate.
Qed.

(** The operations that contain no division. *)
Ltac no_div0_steps :=
  repeat first
    [ apply no_div0_wrap
    | apply no_div0_bind; [| intros ?]
    | apply no_div0_try_catch
    | apply no_div0_with_local; [| intros ? ?]
    | match goal with
      | |- never_divides_by_zero (if ?b then _ else _) => destruct b
      | |- never_divides_by_zero _ => intros ?; discriminate
      end ].

Lemma no_div0_SafeAdd T a b : never_divides_by_zero (SafeAdd T a b).
Proof. unfold SafeAdd, c_add, c_sub. no_div0_steps. Qed.

Lemma no_div0_SafeInt32Sub_status a b :
  never_divides_by_zero (SafeInt32Sub_status a b).
Proof. unfold SafeInt32Sub_status, c_add, c_sub. no_div0_steps. Qed.

(** [SafeUnsignedMult] divides by [arg1] after [arg1 == 0] has been
    ruled out, and multiplies in an unsigned type. *)
Lemma never_undefined_SafeUnsignedMult T a b :
  is_signed T = false -> never_undefined (SafeUnsignedMult T a b).
Proof.
  intros U m why.
  unfold SafeUnsignedMult, c_mul, c_div, wrap_or_overflow. rewrite U.
  cbn [andb]. run.
  destruct (Z.eqb_spec a 0) as [E | E]; [discriminate |].
  destruct (Z.eqb_spec a 0) as [? | _]; [contradiction |].
  destruct (b <=? numeric_max T ÷ a); discriminate.
Qed.

Lemma never_undefined_SafeInt64Mult a b : never_undefined (SafeInt64Mult a b).
Proof.
  intros m why. rewrite SafeInt64Mult_spec.
  destruct (fits int64_t (a * b)); discriminate.
Qed.

(** [SafeUint32DivideUp] divides by [arg2] after [arg2 == 0] has been
    turned into the raised condition. *)
Lemma never_undefined_SafeUint32DivideUp a b :
  never_undefined (SafeUint32DivideUp a b).
Proof.
  intros m why.
  unfold SafeUint32DivideUp, c_sub, c_div, c_add, wrap_or_overflow.
  cbn [is_signed uint32_t andb].
  destruct (Z.eqb_spec b 0) as [E | E]; [discriminate |].
  destruct (a =? 0); [discriminate |]. run.
  destruct (Z.eqb_spec b 0) as [? | _]; [contradiction | discriminate].
Qed.

Lemma never_undefined_SafeUint32Add_status a b :
  never_undefined (SafeUint32Add_status a b).
Proof.
  intros m why.
  unfold SafeUint32Add_status, SafeUint32Add, SafeAdd, c_add, c_sub,
    wrap_or_overflow.
  cbn [is_signed uint32_t]. run.
  repeat match goal with
    | |- context [if ?c then _ else _] => destruct c; cbn [fst snd]
    end; discriminate.
Qed.

(** [RoundUpUint32ToMultiple] takes the remainder by [multiple_of]
    after [multiple_of == 0] has returned [false]. *)
Lemma never_undefined_RoundUpUint32ToMultiple val multiple_of :
  never_undefined (RoundUpUint32ToMultiple val multiple_of).
Proof.
  intros m why. rewrite RoundUpUint32ToMultiple_run.
  destruct (multiple_of =? 0); [discriminate |].
  destruct (Z.rem val multiple_of =? 0); [discriminate |].
  apply never_undefined_SafeUint32Add_status.
Qed.

(** C10. No operation of the module divides by zero.  The primitives
    [/] and [%] are undefined for a zero divisor exactly;
    [SafeUnsignedMult] (in [uint32_t] and [size_t]), [SafeInt64Mult],
    [SafeUint32DivideUp] and [RoundUpUint32ToMultiple], the four
    functions that divide, evaluate no undefined operation for any
    operands, and no other operation ends in a division by zero
    either. *)
Theorem divisions_have_nonzero_divisor
    (size_bits : positive) (TSrc TDest : IntType) (a b c d : Z) :
  (forall T n z m, outcome (c_div T n z m) = Undefined DivisionByZero <-> z = 0) /\
  (forall T n z m, outcome (c_rem T n z m) = Undefined DivisionByZero <-> z = 0) /\
  never_undefined (SafeUnsignedMult uint32_t a b) /\
  never_undefined (SafeUnsignedMult (size_t size_bits) a b) /\
  never_undefined (SafeInt64Mult a b) /\
  (forall m, Int64MultOverflow a b m = (Returns (quadrant_check a b), m)) /\
  never_undefined (SafeUint32DivideUp a b) /\
  never_undefined (RoundUpUint32ToMultiple a b) /\
  never_undefined (SafeUint32Mult a b) /\
  never_undefined (SafeUint32Mult3 a b c) /\
  never_undefined (SafeUint32Mult4 a b c d) /\
  never_undefined (SafeSizetMult size_bits a b) /\
  never_undefined (SafeUint32Mult_status a b) /\
  never_undefined (SafeUint32Mult3_status a b c) /\
  never_undefined (SafeUint32Mult4_status a b c d) /\
  never_divides_by_zero (SafeInt32Add a b) /\
  never_divides_by_zero (SafeInt64Add a b) /\
  never_divides_by_zero (SafeUint32Add a b) /\
  never_divides_by_zero (SafeInt32Add_status a b) /\
  never_divides_by_zero (SafeUint32Add_status a b) /\
  never_divides_by_zero (SafeInt32Sub_status a b) /\
  never_divides_by_zero (SafeInt32Sub a b) /\
  never_divides_by_zero (ConvertUint32ToInt32 a) /\
  never_divides_by_zero (ConvertUnsigned TSrc TDest a).
Proof.
  assert (M2 : forall x y, never_undefined (SafeUint32Mult x y)).
  { intros x y. apply never_undefined_SafeUnsignedMult. reflexivity. }
  assert (M3 : forall x y z, never_undefined (SafeUint32Mult3 x y z)).
  { intros x y z. apply never_undefined_bind; [apply M2 | intros ?; apply M2]. }
  assert (M4 : forall x y z w, never_undefined (SafeUint32Mult4 x y z w)).
  { intros x y z w. apply never_undefined_bind; [apply M3 | intros ?; apply M2]. }
  assert (W : forall F : M Z, never_undefined F ->
                never_undefined
                  (try_catch (v <- F ;; store v ;; ret true) (ret false))).
  { intros F HF. apply never_undefined_try_catch.
    - apply never_undefined_bind; [exact HF | intros v m why; discriminate].
    - intros m why; discriminate. }
  split; [intros; apply c_div_by_zero |].
  split; [intros; apply c_rem_by_zero |].
  split; [apply M2 |].
  split; [apply never_undefined_SafeUnsignedMult; reflexivity |].
  split; [apply never_undefined_SafeInt64Mult |].
  split; [intros m; apply Int64MultOverflow_runs |].
  split; [apply never_undefined_SafeUint32DivideUp |].
  split; [apply never_undefined_RoundUpUint32ToMultiple |].
  split; [apply M2 |]. split; [apply M3 |]. split; [apply M4 |].
  split; [apply never_undefined_SafeUnsignedMult; reflexivity |].
  split; [apply W, M2 |]. split; [apply W, M3 |]. split; [apply W, M4 |].
  split; [apply no_div0_SafeAdd |].
  split; [apply no_div0_SafeAdd |].
  split; [apply no_div0_SafeAdd |].
  split; [apply no_div0_try_catch;
          [apply no_div0_bind; [apply no_div0_SafeAdd | intros v m; discriminate]
          | intros m; discriminate] |].
  split; [apply never_undefined_no_div0, never_undefined_SafeUint32Add_status |].
  split; [apply no_div0_SafeInt32Sub_status |].
  split; [apply no_div0_with_local;
          [apply no_div0_SafeInt32Sub_status
          | intros ok z m; destruct ok; discriminate] |].
  split.
  - intros m. unfold ConvertUint32ToInt32. cbv zeta.
    destruct (a <=? _); discriminate.
  - intros m. rewrite ConvertUnsigned_spec.
    destruct (_ =? a); discriminate.
Qed.

(** ** Concrete cases *)

Example add_int32_max_plus_one :
  SafeInt32Add_status INT32_MAX 1 fresh
    = (Returns false, raised "Arithmetic overflow" fresh).
Proof. reflexivity. Qed.

Example add_uint32_max_plus_one :
  SafeUint32Add_status UINT32_MAX 1 fresh
    = (Returns false, raised "Arithmetic overflow" fresh).
Proof. reflexivity. Qed.

Example sub_int32_min_minus_one :
  SafeInt32Sub_status INT32_MIN 1 fresh = (Returns false, fresh) /\
  SafeInt32Sub INT32_MIN 1 fresh
    = (Throws "Arithmetic overflow", raised "Arithmetic overflow" fresh) /\
  SafeInt32Sub 5 (-3) (MkMachine 42 []) = (Returns 8, MkMachine 42 []).
Proof. repeat split. Qed.

Example mult_four_factors :
  SafeUint32Mult4 2 3 5 7 fresh = (Returns 210, fresh) /\
  SafeUint32Mult4_status 65536 256 256 0 fresh
    = (Returns false, raised "Arithmetic overflow" fresh).
Proof. split; reflexivity. Qed.

Example divide_up_10_3 : SafeUint32DivideUp 10 3 fresh = (Returns 4, fresh).
Proof. reflexivity. Qed.

Example divide_up_9_3 : SafeUint32DivideUp 9 3 fresh = (Returns 3, fresh).
Proof. reflexivity. Qed.

Example round_up_10_4 :
  RoundUpUint32ToMultiple 10 4 fresh = (Returns true, MkMachine 12 []).
Proof. reflexivity. Qed.

Example convert_uint32_to_int32 :
  ConvertUint32ToInt32 2147483648 fresh = (Returns false, fresh) /\
  ConvertUint32ToInt32 2147483647 fresh
    = (Returns true, MkMachine 2147483647 []).
Proof. split; reflexivity. Qed.

(** * Further properties of the module *)

(** ** Checked subtraction *)

Lemma int32_bounds : INT32_MIN = - INT32_MAX - 1 /\ 0 < INT32_MAX.
Proof. split; reflexivity. Qed.

Lemma SafeInt32Sub_status_spec a b m :
  representable int32_t a -> representable int32_t b ->
  SafeInt32Sub_status a b m =
    if fits int32_t (a - b)
    then (Returns true, MkMachine (a - b) (thrown m))
    else (Returns false, m).
Proof.
  unfold representable, SafeInt32Sub_status, c_add, c_sub, wrap_or_overflow, fits.
  cbn [is_signed int32_t].
  change (numeric_min int32_t) with INT32_MIN.
  change (numeric_max int32_t) with INT32_MAX.
  destruct int32_bounds as [Emin Hmax].
  set (MAX := INT32_MAX) in *. set (MIN := INT32_MIN) in *. clearbody MAX MIN.
  intros Ha Hb. run.
  split_tests; cbn [andb]; run; split_tests; cbn [andb]; run;
    split_tests; cbn [andb] in *; run; try reflexivity; try lia.
Qed.

Lemma SafeInt32Sub_spec a b m :
  representable int32_t a -> representable int32_t b ->
  SafeInt32Sub a b m =
    if fits int32_t (a - b)
    then (Returns (a - b), m)
    else (Throws "Arithmetic overflow", raised "Arithmetic overflow" m).
Proof.
  intros Ha Hb. unfold SafeInt32Sub, with_local.
  rewrite SafeInt32Sub_status_spec by assumption.
  destruct m as [s t]. destruct (fits int32_t (a - b)); reflexivity.
Qed.

(** X1. For [int32_t] operands the status form of [SafeInt32Sub]
    returns [true] with the exact difference [a - b] stored when the
    difference is an [int32_t] value, and [false] with the slot as it
    was otherwise; it raises no condition either way. *)
Theorem SafeInt32Sub_status_exact (a b : Z) (m : Machine) :
  representable int32_t a -> representable int32_t b ->
  stored_or_false int32_t (a - b) (SafeInt32Sub_status a b m) m /\
  (outcome (SafeInt32Sub_status a b m) = Returns true
   <-> representable int32_t (a - b)) /\
  thrown (final (SafeInt32Sub_status a b m)) = thrown m.
Proof.
  intros Ha Hb.
  assert (S : stored_or_false int32_t (a - b) (SafeInt32Sub_status a b m) m).
  { rewrite SafeInt32Sub_status_spec by assumption.
    destruct (fits int32_t (a - b)) eqn:E.
    - apply fits_representable in E.
      split; [intros _; split; reflexivity | contradiction].
    - apply fits_not_representable in E.
      split; [contradiction | intros _; split; reflexivity]. }
  split; [exact S |].
  split; [exact (stored_or_false_succeeds _ _ _ _ S) |].
  apply silent_SafeInt32Sub_status.
Qed.

Lemma SafeInt32Sub_status_exact_witness :
  (representable int32_t (-2147483648) /\ representable int32_t (-1)) /\
  outcome (SafeInt32Sub_status (-2147483648) (-1) fresh) = Returns true /\
  slot (final (SafeInt32Sub_status (-2147483648) (-1) fresh)) = -2147483647.
Proof.
  assert (R1 : representable int32_t (-2147483648)) by (split; vm_compute; discriminate).
  assert (R2 : representable int32_t (-1)) by (split; vm_compute; discriminate).
  split; [exact (conj R1 R2) |].
  destruct (SafeInt32Sub_status_exact (-2147483648) (-1) fresh R1 R2)
    as ([H _] & _).
  apply H. split; vm_compute; discriminate.
Defined.

(** X2. For [int32_t] operands the result form of [SafeInt32Sub]
    returns the exact difference when it is an [int32_t] value and
    raises the overflow condition otherwise; the status form it calls
    writes to a local, so the caller's slot is as it was in both
    cases. *)
Theorem SafeInt32Sub_exact (a b : Z) (m : Machine) :
  representable int32_t a -> representable int32_t b ->
  exact_or_overflow int32_t (a - b) (SafeInt32Sub a b m) m /\
  (succeeds (SafeInt32Sub a b m) <-> representable int32_t (a - b)).
Proof.
  intros Ha Hb.
  assert (E : exact_or_overflow int32_t (a - b) (SafeInt32Sub a b m) m).
  { apply exact_or_overflow_of_fits. now apply SafeInt32Sub_spec. }
  split; [exact E | exact (exact_or_overflow_succeeds _ _ _ _ E)].
Qed.

Lemma SafeInt32Sub_exact_witness :
  (representable int32_t 2147483647 /\ representable int32_t (-1)) /\
  SafeInt32Sub 2147483647 (-1) (MkMachine 42 []) =
    (Throws "Arithmetic overflow", MkMachine 42 ["Arithmetic overflow"]).
Proof.
  assert (R1 : representable int32_t 2147483647) by (split; vm_compute; discriminate).
  assert (R2 : representable int32_t (-1)) by (split; vm_compute; discriminate).
  split; [exact (conj R1 R2) |].
  destruct (SafeInt32Sub_exact 2147483647 (-1) (MkMachine 42 []) R1 R2)
    as ([_ H] & _).
  apply H. vm_compute. intros [_ K]. now apply K.
Defined.

(** ** Conversion from [uint32_t] to [int32_t] *)

(** X3. For a [uint32_t] value, [ConvertUint32ToInt32] returns [true]
    and stores the value itself when it is at most [INT32_MAX], and
    returns [false] with the machine as it was (nothing stored, nothing
    raised) when it is larger; it succeeds exactly for the values
    [int32_t] has. *)
Theorem ConvertUint32ToInt32_exact (val : Z) (m : Machine) :
  representable uint32_t val ->
  (val <= INT32_MAX ->
     ConvertUint32ToInt32 val m = (Returns true, MkMachine val (thrown m))) /\
  (INT32_MAX < val -> ConvertUint32ToInt32 val m = (Returns false, m)) /\
  (outcome (ConvertUint32ToInt32 val m) = Returns true
   <-> representable int32_t val).
Proof.
  intros Hval. unfold ConvertUint32ToInt32. cbv zeta.
  assert (K : static_cast uint32_t (numeric_max int32_t) = INT32_MAX)
    by reflexivity.
  rewrite K.
  assert (H0 : 0 <= val).
  { destruct Hval as [H _]. destruct uint32_bounds as (E0 & _).
    rewrite E0 in H. exact H. }
  assert (R : val <= INT32_MAX -> representable int32_t val).
  { intros H. unfold representable. fold INT32_MIN INT32_MAX.
    destruct int32_bounds as [Emin Hmax]. lia. }
  destruct (Z.leb_spec val INT32_MAX) as [L | L].
  - rewrite (static_cast_representable int32_t val (R L)). run.
    split; [reflexivity |]. split; [lia |].
    split; [intros _; exact (R L) | reflexivity].
  - run. split; [lia |]. split; [reflexivity |].
    split; [discriminate |].
    intros [_ H]. fold INT32_MAX in H. lia.
Qed.

Lemma ConvertUint32ToInt32_exact_witness :
  representable uint32_t 4294967295 /\
  ConvertUint32ToInt32 4294967295 (MkMachine 42 []) = (Returns false, MkMachine 42 []).
Proof.
  assert (R : representable uint32_t 4294967295) by (split; vm_compute; discriminate).
  split; [exact R |].
  destruct (ConvertUint32ToInt32_exact 4294967295 (MkMachine 42 []) R) as (_ & H & _).
  apply H. reflexivity.
Defined.

(** ** Products of three and four factors *)

Lemma uint32_nonneg z : representable uint32_t z -> 0 <= z <= UINT32_MAX.
Proof.
  unfold representable, UINT32_MAX. destruct uint32_bounds as (-> & _). tauto.
Qed.

Lemma SafeUint32Mult3_spec a b c m :
  representable uint32_t a -> representable uint32_t b ->
  representable uint32_t c ->
  SafeUint32Mult3 a b c m =
    if (a * b <=? UINT32_MAX) && (a * b * c <=? UINT32_MAX)
    then (Returns (a * b * c), m)
    else (Throws "Arithmetic overflow", raised "Arithmetic overflow" m).
Proof. exact (Multiply_left_spec a b c m). Qed.

Lemma SafeUint32Mult4_spec a b c d m :
  representable uint32_t a -> representable uint32_t b ->
  representable uint32_t c -> representable uint32_t d ->
  SafeUint32Mult4 a b c d m =
    if (a * b <=? UINT32_MAX) && (a * b * c <=? UINT32_MAX)
         && (a * b * c * d <=? UINT32_MAX)
    then (Returns (a * b * c * d), m)
    else (Throws "Arithmetic overflow", raised "Arithmetic overflow" m).
Proof.
  intros Ha Hb Hc Hd. unfold SafeUint32Mult4, bind.
  rewrite SafeUint32Mult3_spec by assumption.
  apply uint32_nonneg in Ha, Hb, Hc.
  destruct (Z.leb_spec (a * b) UINT32_MAX) as [L1 | L1]; [| reflexivity].
  destruct (Z.leb_spec (a * b * c) UINT32_MAX) as [L2 | L2]; [| reflexivity].
  cbn [andb]. apply SafeUint32Mult_spec; [| exact Hd].
  unfold representable. destruct uint32_bounds as (-> & _).
  fold UINT32_MAX. split; [| exact L2].
  apply Z.mul_nonneg_nonneg; [apply Z.mul_nonneg_nonneg |]; lia.
Qed.

(** A status form around a result form that is exact-or-overflow. *)
Lemma status_of_result (F : M Z) (ok : bool) (v : Z) m :
  F m = (if ok then (Returns v, m)
         else (Throws "Arithmetic overflow", raised "Arithmetic overflow" m)) ->
  try_catch (x <- F ;; store x ;; ret true) (ret false) m =
    if ok then (Returns true, MkMachine v (thrown m))
    else (Returns false, raised "Arithmetic overflow" m).
Proof.
  intros E. unfold try_catch, bind at 1. rewrite E. destruct ok; reflexivity.
Qed.

(** X4. For [uint32_t] operands, the product of three factors is
    formed left to right: [SafeUint32Mult(a, b, c)] returns the exact
    product when both [a * b] and [a * b * c] are [uint32_t] values and
    raises the overflow condition, once, otherwise; with [c] not zero
    it succeeds exactly when the full product fits.  The status form
    stores that product and returns [true], or returns [false]. *)
Theorem SafeUint32Mult3_exact (a b c : Z) (m : Machine) :
  representable uint32_t a -> representable uint32_t b ->
  representable uint32_t c ->
  (a * b <= UINT32_MAX -> a * b * c <= UINT32_MAX ->
     SafeUint32Mult3 a b c m = (Returns (a * b * c), m) /\
     SafeUint32Mult3_status a b c m
       = (Returns true, MkMachine (a * b * c) (thrown m))) /\
  (UINT32_MAX < a * b \/ UINT32_MAX < a * b * c ->
     SafeUint32Mult3 a b c m
       = (Throws "Arithmetic overflow", raised "Arithmetic overflow" m) /\
     SafeUint32Mult3_status a b c m
       = (Returns false, raised "Arithmetic overflow" m)) /\
  (c <> 0 -> (succeeds (SafeUint32Mult3 a b c m) <-> a * b * c <= UINT32_MAX)).
Proof.
  intros Ha Hb Hc.
  pose proof (SafeUint32Mult3_spec a b c m Ha Hb Hc) as E.
  pose proof (status_of_result (SafeUint32Mult3 a b c) _ _ m E) as S.
  fold (SafeUint32Mult3_status a b c) in S.
  rewrite E, S. clear E S.
  apply uint32_nonneg in Ha, Hb, Hc.
  assert (Hab : 0 <= a * b) by nia.
  destruct (Z.leb_spec (a * b) UINT32_MAX) as [L1 | L1],
           (Z.leb_spec (a * b * c) UINT32_MAX) as [L2 | L2]; cbn [andb].
  - split; [intros _ _; split; reflexivity |].
    split; [intros [H | H]; lia |].
    intros _. split; [intros _; exact L2 | intros _; apply succeeds_Returns].
  - split; [intros _ H; lia |].
    split; [intros _; split; reflexivity |].
    intros _. split; [intros H; now apply succeeds_Throws in H | lia].
  - split; [intros H; lia |].
    split; [intros _; split; reflexivity |].
    intros Hnz. split; [intros H; now apply succeeds_Throws in H | nia].
  - split; [intros H; lia |].
    split; [intros _; split; reflexivity |].
    intros _. split; [intros H; now apply succeeds_Throws in H | lia].
Qed.

Lemma SafeUint32Mult3_exact_witness :
  (representable uint32_t 65536 /\ representable uint32_t 0) /\
  SafeUint32Mult3_status 65536 65536 0 (MkMachine 42 [])
    = (Returns false, MkMachine 42 ["Arithmetic overflow"]) /\
  SafeUint32Mult3 0 65536 65536 fresh = (Returns 0, fresh).
Proof.
  assert (R1 : representable uint32_t 65536) by (split; vm_compute; discriminate).
  assert (R0 : representable uint32_t 0) by (split; vm_compute; discriminate).
  split; [exact (conj R1 R0) |]. split.
  - destruct (SafeUint32Mult3_exact 65536 65536 0 (MkMachine 42 []) R1 R1 R0)
      as (_ & H & _).
    apply H. left. reflexivity.
  - destruct (SafeUint32Mult3_exact 0 65536 65536 fresh R0 R1 R1) as (H & _).
    apply H; vm_compute; discriminate.
Defined.

(** X5. For [uint32_t] operands, [SafeUint32Mult(a, b, c, d)] returns
    the exact product when each of the partial products [a * b],
    [a * b * c] and [a * b * c * d] is a [uint32_t] value, and raises
    the overflow condition, once, as soon as one is not; with [c] and
    [d] not zero it succeeds exactly when the full product fits.  The
    status form stores the product and returns [true], or returns
    [false]. *)
Theorem SafeUint32Mult4_exact (a b c d : Z) (m : Machine) :
  representable uint32_t a -> representable uint32_t b ->
  representable uint32_t c -> representable uint32_t d ->
  (a * b <= UINT32_MAX -> a * b * c <= UINT32_MAX ->
   a * b * c * d <= UINT32_MAX ->
     SafeUint32Mult4 a b c d m = (Returns (a * b * c * d), m) /\
     SafeUint32Mult4_status a b c d m
       = (Returns true, MkMachine (a * b * c * d) (thrown m))) /\
  (UINT32_MAX < a * b \/ UINT32_MAX < a * b * c \/ UINT32_MAX < a * b * c * d ->
     SafeUint32Mult4 a b c d m
       = (Throws "Arithmetic overflow", raised "Arithmetic overflow" m) /\
     SafeUint32Mult4_status a b c d m
       = (Returns false, raised "Arithmetic overflow" m)) /\
  (c <> 0 -> d <> 0 ->
   (succeeds (SafeUint32Mult4 a b c d m) <-> a * b * c * d <= UINT32_MAX)).
Proof.
  intros Ha Hb Hc Hd.
  pose proof (SafeUint32Mult4_spec a b c d m Ha Hb Hc Hd) as E.
  pose proof (status_of_result (SafeUint32Mult4 a b c d) _ _ m E) as S.
  fold (SafeUint32Mult4_status a b c d) in S.
  rewrite E, S. clear E S.
  apply uint32_nonneg in Ha, Hb, Hc, Hd.
  assert (Hab : 0 <= a * b) by nia.
  assert (Habc : 0 <= a * b * c) by nia.
  assert (M1 : c <> 0 -> a * b <= a * b * c) by (intros; nia).
  assert (M2 : d <> 0 -> a * b * c <= a * b * c * d) by (intros; nia).
  set (p2 := a * b) in *. set (p3 := p2 * c) in *. set (p4 := p3 * d) in *.
  clearbody p4 p3 p2.
  pose proof (@succeeds_Returns Z p4 m) as SR.
  pose proof (@succeeds_Throws Z "Arithmetic overflow"
                (raised "Arithmetic overflow" m)) as ST.
  destruct (Z.leb_spec p2 UINT32_MAX) as [L1 | L1],
           (Z.leb_spec p3 UINT32_MAX) as [L2 | L2],
           (Z.leb_spec p4 UINT32_MAX) as [L3 | L3]; cbn [andb].
  all: split; [intros; try lia; split; reflexivity |].
  all: split; [intros; try lia; split; reflexivity |].
  all: intros Hc' Hd'; specialize (M1 Hc'); specialize (M2 Hd').
  all: split; [intros H; try lia; exfalso; exact (ST H) | intros; try lia; exact SR].
Qed.

Lemma SafeUint32Mult4_exact_witness :
  (representable uint32_t 256 /\ representable uint32_t 255) /\
  SafeUint32Mult4 256 256 256 255 fresh = (Returns 4278190080, fresh) /\
  SafeUint32Mult4_status 256 256 256 256 fresh
    = (Returns false, raised "Arithmetic overflow" fresh).
Proof.
  assert (R1 : representable uint32_t 256) by (split; vm_compute; discriminate).
  assert (R2 : representable uint32_t 255) by (split; vm_compute; discriminate).
  split; [exact (conj R1 R2) |]. split.
  - destruct (SafeUint32Mult4_exact 256 256 256 255 fresh R1 R1 R1 R2) as (H & _).
    apply H; vm_compute; discriminate.
  - destruct (SafeUint32Mult4_exact 256 256 256 256 fresh R1 R1 R1 R1)
      as (_ & H & _).
    apply H. right. right. reflexivity.
Defined.

(** ** Order of the operands *)

(** X6. The checks are written asymmetrically (the multiplication
    divides by its first operand, the addition subtracts it from the
    bound), but the outcome does not depend on the order of the
    operands: each checked addition and multiplication gives the same
    result, or raises the same condition, with its operands swapped. *)
Theorem checked_operations_commute
    (size_bits : positive) (a b u v x y s t : Z) (m : Machine) :
  representable int32_t a -> representable int32_t b ->
  representable uint32_t u -> representable uint32_t v ->
  representable int64_t x -> representable int64_t y ->
  representable (size_t size_bits) s -> representable (size_t size_bits) t ->
  SafeInt32Add a b m = SafeInt32Add b a m /\
  SafeInt32Add_status a b m = SafeInt32Add_status b a m /\
  SafeUint32Add u v m = SafeUint32Add v u m /\
  SafeUint32Add_status u v m = SafeUint32Add_status v u m /\
  SafeInt64Add x y m = SafeInt64Add y x m /\
  SafeUint32Mult u v m = SafeUint32Mult v u m /\
  SafeUint32Mult_status u v m = SafeUint32Mult_status v u m /\
  SafeSizetMult size_bits s t m = SafeSizetMult size_bits t s m /\
  SafeInt64Mult x y m = SafeInt64Mult y x m.
Proof.
  intros Ha Hb Hu Hv Hx Hy Hs Ht.
  assert (A : forall T p q, representable T p -> representable T q ->
                SafeAdd T p q m = SafeAdd T q p m).
  { intros T p q Hp Hq. rewrite !SafeAdd_spec by assumption.
    now rewrite (Z.add_comm q p). }
  assert (AS : forall T p q, representable T p -> representable T q ->
     try_catch (r <- SafeAdd T p q ;; store r ;; ret true) (ret false) m =
     try_catch (r <- SafeAdd T q p ;; store r ;; ret true) (ret false) m).
  { intros T p q Hp Hq. rewrite !Add_status_spec by assumption.
    now rewrite (Z.add_comm q p). }
  assert (U : forall T p q, is_signed T = false ->
                representable T p -> representable T q ->
                SafeUnsignedMult T p q m = SafeUnsignedMult T q p m).
  { intros T p q HT Hp Hq. rewrite !SafeUnsignedMult_spec by assumption.
    now rewrite (Z.mul_comm q p). }
  split; [apply A; assumption |]. split; [apply AS; assumption |].
  split; [apply A; assumption |]. split; [apply AS; assumption |].
  split; [apply A; assumption |].
  split; [apply U; [reflexivity | assumption | assumption] |].
  split.
  { unfold SafeUint32Mult_status, try_catch, bind at 1 3, SafeUint32Mult.
    now rewrite (U uint32_t u v eq_refl Hu Hv). }
  split; [apply U; [reflexivity | assumption | assumption] |].
  rewrite !SafeInt64Mult_spec. now rewrite (Z.mul_comm y x).
Qed.

Lemma checked_operations_commute_witness :
  (representable int32_t 2147483647 /\ representable int32_t (-5) /\
   representable uint32_t 3 /\ representable uint32_t 4294967295 /\
   representable int64_t (-1) /\ representable int64_t INT64_MIN /\
   representable (size_t 16) 256 /\ representable (size_t 16) 255) /\
  SafeUint32Mult 3 4294967295 fresh = SafeUint32Mult 4294967295 3 fresh /\
  SafeInt64Mult (-1) INT64_MIN fresh = SafeInt64Mult INT64_MIN (-1) fresh.
Proof.
  assert (R : representable int32_t 2147483647 /\ representable int32_t (-5) /\
   representable uint32_t 3 /\ representable uint32_t 4294967295 /\
   representable int64_t (-1) /\ representable int64_t INT64_MIN /\
   representable (size_t 16) 256 /\ representable (size_t 16) 255).
  { split; [| split; [| split; [| split; [| split; [| split; [| split]]]]]];
      split; vm_compute; discriminate. }
  split; [exact R |].
  destruct R as (R1 & R2 & R3 & R4 & R5 & R6 & R7 & R8).
  destruct (checked_operations_commute 16 2147483647 (-5) 3 4294967295
              (-1) INT64_MIN 256 255 fresh R1 R2 R3 R4 R5 R6 R7 R8)
    as (_ & _ & _ & _ & _ & H1 & _ & _ & H2).
  exact (conj H1 H2).
Defined.

(** ** Operations undoing one another *)

(** X7. Checked addition and subtraction in [int32_t] undo one
    another: when [SafeInt32Add(a, b)] returns [s], both
    [SafeInt32Sub(s, b)] and [SafeInt32Sub(s, a)] succeed and give back
    [a] and [b]; when [SafeInt32Sub(a, b)] returns [d],
    [SafeInt32Add(d, b)] succeeds and gives back [a]. *)
Theorem add_sub_round_trip (a b : Z) (m : Machine) :
  representable int32_t a -> representable int32_t b ->
  (forall s, SafeInt32Add a b m = (Returns s, m) ->
     SafeInt32Sub s b m = (Returns a, m) /\
     SafeInt32Sub s a m = (Returns b, m)) /\
  (forall d, SafeInt32Sub a b m = (Returns d, m) ->
     SafeInt32Add d b m = (Returns a, m)).
Proof.
  intros Ha Hb. split.
  - intros s. unfold SafeInt32Add. rewrite SafeAdd_spec by assumption.
    destruct (fits int32_t (a + b)) eqn:F; [| discriminate].
    intros E. injection E as <-. apply fits_representable in F.
    rewrite !SafeInt32Sub_spec by assumption.
    replace (a + b - b) with a by lia. replace (a + b - a) with b by lia.
    apply fits_representable in Ha, Hb. rewrite Ha, Hb. split; reflexivity.
  - intros d. rewrite SafeInt32Sub_spec by assumption.
    destruct (fits int32_t (a - b)) eqn:F; [| discriminate].
    intros E. injection E as <-. apply fits_representable in F.
    unfold SafeInt32Add. rewrite SafeAdd_spec by assumption.
    replace (a - b + b) with a by lia.
    apply fits_representable in Ha. rewrite Ha. reflexivity.
Qed.

Lemma add_sub_round_trip_witness :
  (representable int32_t (-2147483648) /\ representable int32_t 2147483647) /\
  SafeInt32Sub (-1) 2147483647 fresh = (Returns (-2147483648), fresh).
Proof.
  assert (R1 : representable int32_t (-2147483648)) by (split; vm_compute; discriminate).
  assert (R2 : representable int32_t 2147483647) by (split; vm_compute; discriminate).
  split; [exact (conj R1 R2) |].
  destruct (add_sub_round_trip (-2147483648) 2147483647 fresh R1 R2) as (H & _).
  destruct (H (-1) eq_refl) as [H1 _]. exact H1.
Defined.

(** X8. Ceiling division undoes a checked multiplication: when
    [SafeUint32Mult(a, b)] returns [p] and [b] is not zero,
    [SafeUint32DivideUp(p, b)] returns [a]. *)
Theorem mult_divide_round_trip (a b : Z) (m : Machine) :
  representable uint32_t a -> representable uint32_t b -> 0 < b ->
  forall p, SafeUint32Mult a b m = (Returns p, m) ->
    SafeUint32DivideUp p b m = (Returns a, m).
Proof.
  intros Ha Hb Hpos p. rewrite SafeUint32Mult_spec by assumption.
  destruct (Z.leb_spec (a * b) UINT32_MAX) as [L | L]; [| discriminate].
  intros E. injection E as <-.
  assert (Hp : representable uint32_t (a * b)).
  { apply uint32_nonneg in Ha, Hb. unfold representable.
    destruct uint32_bounds as (-> & _). fold UINT32_MAX. split; [nia | exact L]. }
  destruct (SafeUint32DivideUp_spec (a * b) b m Hp Hb Hpos) as [E _].
  rewrite E. f_equal. f_equal.
  replace (a * b + b - 1) with (b - 1 + a * b) by lia.
  rewrite Z.div_add by lia. rewrite Z.div_small by lia. lia.
Qed.

Lemma mult_divide_round_trip_witness :
  (representable uint32_t 65535 /\ representable uint32_t 65537 /\ 0 < 65537) /\
  SafeUint32DivideUp 4294967295 65537 fresh = (Returns 65535, fresh).
Proof.
  assert (R1 : representable uint32_t 65535) by (split; vm_compute; discriminate).
  assert (R2 : representable uint32_t 65537) by (split; vm_compute; discriminate).
  assert (P : 0 < 65537) by lia.
  split; [exact (conj R1 (conj R2 P)) |].
  exact (mult_divide_round_trip 65535 65537 fresh R1 R2 P 4294967295 eq_refl).
Defined.

(** ** The formula [SafeUint32DivideUp] avoids *)

(** X9. The comment in [SafeUint32DivideUp] sets aside
    [(arg1 + arg2 - 1) / arg2] because [arg1 + arg2] can wrap around.
    For [uint32_t] operands with [arg2 > 0] the two agree when
    [arg1 + arg2 - 1] is a [uint32_t] value; when it is not, the
    formula gives 0 while [SafeUint32DivideUp] returns the ceiling,
    which is positive. *)
Theorem naive_divide_up_wraps (a b : Z) (m : Machine) :
  representable uint32_t a -> representable uint32_t b -> 0 < b ->
  (a + b - 1 <= UINT32_MAX ->
     naive_divide_up a b m = SafeUint32DivideUp a b m) /\
  (UINT32_MAX < a + b - 1 ->
     naive_divide_up a b m = (Returns 0, m) /\
     exists r, SafeUint32DivideUp a b m = (Returns r, m) /\ 0 < r).
Proof.
  intros Ha Hb Hpos.
  destruct (SafeUint32DivideUp_spec a b m Ha Hb Hpos) as [E B].
  rewrite E. apply uint32_nonneg in Ha, Hb.
  unfold naive_divide_up, c_add, c_sub, c_div, wrap_or_overflow.
  cbn [is_signed uint32_t andb]. run.
  destruct (Z.eqb_spec b 0) as [? | _]; [lia |].
  destruct uint32_bounds as (_ & E1 & Hm). unfold UINT32_MAX in *.
  rewrite E1 in *. set (N := modulus uint32_t) in *. clearbody N.
  split.
  - intros L. f_equal. f_equal.
    destruct (Z.eq_dec (a + b) N) as [W | W].
    + rewrite W, Z.mod_same by lia. cbn [Z.sub Z.opp Z.add].
      replace (-1 mod N) with (N - 1).
      * apply Z.quot_div_nonneg; lia.
      * apply Z.mod_unique with (q := -1); lia.
    + rewrite (Z.mod_small (a + b)) by lia.
      rewrite (Z.mod_small (a + b - 1)) by lia.
      apply Z.quot_div_nonneg; lia.
  - intros L.
    assert (S : (a + b) mod N = a + b - N).
    { symmetry. apply Z.mod_unique with (q := 1); lia. }
    rewrite S. rewrite (Z.mod_small (a + b - N - 1)) by lia.
    split.
    + f_equal. f_equal. apply Z.quot_small. lia.
    + exists ((a + b - 1) / b). split; [reflexivity |].
      apply Z.div_str_pos. lia.
Qed.

Lemma naive_divide_up_wraps_witness :
  (representable uint32_t 4294967295 /\ representable uint32_t 2 /\ 0 < 2) /\
  naive_divide_up 4294967295 2 fresh = (Returns 0, fresh) /\
  exists r, SafeUint32DivideUp 4294967295 2 fresh = (Returns r, fresh) /\ 0 < r.
Proof.
  assert (R1 : representable uint32_t 4294967295) by (split; vm_compute; discriminate).
  assert (R2 : representable uint32_t 2) by (split; vm_compute; discriminate).
  assert (P : 0 < 2) by lia.
  split; [exact (conj R1 (conj R2 P)) |].
  destruct (naive_divide_up_wraps 4294967295 2 fresh R1 R2 P) as (_ & H).
  apply H. reflexivity.
Defined.

(** ** Rounding up and ceiling division *)

(** The ceiling of [val / m], times [m], is the next multiple. *)
Lemma ceiling_times_divisor val m :
  0 <= val -> 0 < m ->
  (val + m - 1) / m * m =
    if val mod m =? 0 then val else val + (m - val mod m).
Proof.
  intros Hval Hm.
  pose proof (Z.div_mod val m ltac:(lia)) as D.
  pose proof (Z.mod_pos_bound val m Hm) as R.
  destruct (Z.eqb_spec (val mod m) 0) as [E | E].
  - assert (Q : (val + m - 1) / m = val / m).
    { symmetry. apply Z.div_unique with (r := m - 1); lia. }
    rewrite Q. lia.
  - assert (Q : (val + m - 1) / m = val / m + 1).
    { symmetry. apply Z.div_unique with (r := val mod m - 1); lia. }
    rewrite Q. lia.
Qed.

(** X10. For [uint32_t] operands, [RoundUpUint32ToMultiple(val, m)]
    gives the same status and output as the checked product
    [SafeUint32Mult(SafeUint32DivideUp(val, m), m)] taken as a status
    form: both fail for [m = 0] and when the multiple does not fit,
    and both store the same multiple otherwise. *)
Theorem round_up_is_ceiling_times_divisor (val multiple_of : Z) (m : Machine) :
  representable uint32_t val -> representable uint32_t multiple_of ->
  same_result (RoundUpUint32ToMultiple val multiple_of m)
              (round_up_by_division val multiple_of m).
Proof.
  intros Hval Hmul.
  destruct (Z.eq_dec multiple_of 0) as [-> | Hnz].
  - split; reflexivity.
  - pose proof (uint32_nonneg _ Hval) as Bv.
    pose proof (uint32_nonneg _ Hmul) as Bm.
    assert (Hpos : 0 < multiple_of) by lia.
    rewrite RoundUpUint32ToMultiple_spec by assumption. cbv zeta.
    destruct (SafeUint32DivideUp_spec val multiple_of m Hval Hmul Hpos) as [E B].
    unfold round_up_by_division, try_catch, bind at 1. rewrite E.
    unfold bind at 1. rewrite SafeUint32Mult_spec.
    + rewrite ceiling_times_divisor by lia.
      destruct (_ <=? UINT32_MAX); split; reflexivity.
    + unfold representable. destruct uint32_bounds as (-> & _).
      fold UINT32_MAX. lia.
    + exact Hmul.
Qed.

Lemma round_up_is_ceiling_times_divisor_witness :
  (representable uint32_t 4294967293 /\ representable uint32_t 7) /\
  same_result (RoundUpUint32ToMultiple 4294967293 7 (MkMachine 42 []))
              (round_up_by_division 4294967293 7 (MkMachine 42 [])) /\
  outcome (round_up_by_division 4294967293 7 (MkMachine 42 [])) = Returns false.
Proof.
  assert (R1 : representable uint32_t 4294967293) by (split; vm_compute; discriminate).
  assert (R2 : representable uint32_t 7) by (split; vm_compute; discriminate).
  split; [exact (conj R1 R2) |].
  split; [| reflexivity].
  exact (round_up_is_ceiling_times_divisor 4294967293 7 (MkMachine 42 []) R1 R2).
Defined.

(** X11. Rounding up is idempotent: when
    [RoundUpUint32ToMultiple(val, m)] has returned [true], rounding
    the stored value up to a multiple of [m] again returns [true] and
    leaves that value in place. *)
Theorem round_up_idempotent (val multiple_of : Z) (m m' : Machine) :
  representable uint32_t val -> representable uint32_t multiple_of ->
  RoundUpUint32ToMultiple val multiple_of m = (Returns true, m') ->
  RoundUpUint32ToMultiple (slot m') multiple_of m' = (Returns true, m').
Proof.
  intros Hval Hmul.
  destruct (Z.eq_dec multiple_of 0) as [-> | Hnz]; [discriminate |].
  pose proof (uint32_nonneg _ Hval) as Bv.
  pose proof (uint32_nonneg _ Hmul) as Bm.
  assert (Hpos : 0 < multiple_of) by lia.
  rewrite RoundUpUint32ToMultiple_spec by assumption. cbv zeta.
  destruct (next_multiple_smallest multiple_of val ltac:(lia) Hpos)
    as ([k Hk] & Hge & _).
  set (r := if val mod multiple_of =? 0 then val
            else val + (multiple_of - val mod multiple_of)) in *.
  clearbody r.
  destruct (Z.leb_spec r UINT32_MAX) as [L | L]; [| discriminate].
  intros E. injection E as <-. cbn [slot].
  assert (Hr : representable uint32_t r).
  { unfold representable. destruct uint32_bounds as (-> & _).
    fold UINT32_MAX. lia. }
  rewrite RoundUpUint32ToMultiple_spec by assumption. cbv zeta.
  assert (Z0 : r mod multiple_of = 0).
  { rewrite Hk. apply Z.mod_mul. lia. }
  rewrite Z0. cbn [Z.eqb].
  apply Z.leb_le in L. rewrite L. reflexivity.
Qed.

Lemma round_up_idempotent_witness :
  (representable uint32_t 10 /\ representable uint32_t 4) /\
  RoundUpUint32ToMultiple 12 4 (MkMachine 12 []) = (Returns true, MkMachine 12 []).
Proof.
  assert (R1 : representable uint32_t 10) by (split; vm_compute; discriminate).
  assert (R2 : representable uint32_t 4) by (split; vm_compute; discriminate).
  split; [exact (conj R1 R2) |].
  exact (round_up_idempotent 10 4 fresh (MkMachine 12 []) R1 R2 eq_refl).
Defined.

(** ** Widening conversions *)

(** X12. [ConvertUnsigned] "is designed to work also if TDest is
    wider than TSrc or identical to TSrc": for unsigned types with
    [TDest] at least as wide as [TSrc], it never raises and stores the
    source value itself. *)
Theorem ConvertUnsigned_widening (TSrc TDest : IntType) (x : Z) (m : Machine) :
  is_signed TSrc = false -> is_signed TDest = false ->
  (width TSrc <= width TDest)%positive ->
  representable TSrc x ->
  ConvertUnsigned TSrc TDest x m = (Returns tt, MkMachine x (thrown m)).
Proof.
  intros Hs Hd Hw Hx.
  assert (Hx' : representable TDest x).
  { unfold representable in *.
    destruct (unsigned_bounds TSrc Hs) as [E0 E1].
    destruct (unsigned_bounds TDest Hd) as [F0 F1].
    rewrite E0, E1 in Hx. rewrite F0, F1.
    assert (modulus TSrc <= modulus TDest).
    { unfold modulus. apply Z.pow_le_mono_r; lia. }
    lia. }
  rewrite ConvertUnsigned_spec.
  rewrite (static_cast_representable TDest x Hx').
  rewrite (static_cast_representable TSrc x Hx).
  rewrite Z.eqb_refl. reflexivity.
Qed.

Lemma ConvertUnsigned_widening_witness :
  (is_signed uint32_t = false /\ is_signed (size_t 64) = false /\
   (width uint32_t <= width (size_t 64))%positive /\
   representable uint32_t 4294967295) /\
  ConvertUnsigned uint32_t (size_t 64) 4294967295 fresh
    = (Returns tt, MkMachine 4294967295 []).
Proof.
  assert (R : representable uint32_t 4294967295) by (split; vm_compute; discriminate).
  assert (W : (width uint32_t <= width (size_t 64))%positive)
    by (vm_compute; discriminate).
  split; [exact (conj eq_refl (conj eq_refl (conj W R))) |].
  exact (ConvertUnsigned_widening uint32_t (size_t 64) 4294967295 fresh
           eq_refl eq_refl W R).
Defined.

(** ** Status forms end in a status *)

Lemma never_undefined_SafeAdd_uint32 a b : never_undefined (SafeAdd uint32_t a b).
Proof.
  intros m why. unfold SafeAdd, c_add, c_sub, wrap_or_overflow.
  cbn [is_signed uint32_t]. run.
  repeat match goal with
    | |- context [if ?c then _ else _] => destruct c; cbn [fst snd]
    end; discriminate.
Qed.

Lemma never_undefined_SafeUint32Mult3 a b c : never_undefined (SafeUint32Mult3 a b c).
Proof.
  apply never_undefined_bind; [| intros ?];
    apply never_undefined_SafeUnsignedMult; reflexivity.
Qed.

Lemma never_undefined_SafeUint32Mult4 a b c d :
  never_undefined (SafeUint32Mult4 a b c d).
Proof.
  apply never_undefined_bind; [apply never_undefined_SafeUint32Mult3 | intros ?].
  apply never_undefined_SafeUnsignedMult; reflexivity.
Qed.

(** A wrapper turns what its result form returns into [true] and what
    it raises into [false]. *)
Lemma status_wrapper_returns (F : M Z) m :
  never_undefined F ->
  returns_status (try_catch (v <- F ;; store v ;; ret true) (ret false) m).
Proof.
  intros HF. specialize (HF m).
  unfold returns_status, try_catch, bind, outcome in *.
  destruct (F m) as [[v | what | why] m']; cbn [fst] in *.
  - exists true. reflexivity.
  - exists false. reflexivity.
  - exfalso. now apply (HF why).
Qed.

(** X13. No condition escapes a status form, and none runs into an
    undefined operation: the unsigned status forms
    ([SafeUint32Add], the three [SafeUint32Mult],
    [RoundUpUint32ToMultiple], [ConvertUint32ToInt32]) end in [true]
    or [false] for any operands, and the signed ones ([SafeInt32Add],
    [SafeInt32Sub]) for any [int32_t] operands. *)
Theorem status_forms_return_status (a b u v w z : Z) (m : Machine) :
  representable int32_t a -> representable int32_t b ->
  returns_status (SafeInt32Add_status a b m) /\
  returns_status (SafeInt32Sub_status a b m) /\
  returns_status (SafeUint32Add_status u v m) /\
  returns_status (SafeUint32Mult_status u v m) /\
  returns_status (SafeUint32Mult3_status u v w m) /\
  returns_status (SafeUint32Mult4_status u v w z m) /\
  returns_status (RoundUpUint32ToMultiple u v m) /\
  returns_status (ConvertUint32ToInt32 u m).
Proof.
  intros Ha Hb.
  split.
  { unfold SafeInt32Add_status, SafeInt32Add.
    rewrite Add_status_spec by assumption.
    destruct (fits int32_t (a + b)); eexists; reflexivity. }
  split.
  { rewrite SafeInt32Sub_status_spec by assumption.
    destruct (fits int32_t (a - b)); eexists; reflexivity. }
  assert (UA : forall p q m0, returns_status (SafeUint32Add_status p q m0)).
  { intros p q m0. apply status_wrapper_returns, never_undefined_SafeAdd_uint32. }
  split; [apply UA |].
  split; [apply status_wrapper_returns, never_undefined_SafeUnsignedMult;
          reflexivity |].
  split; [apply status_wrapper_returns, never_undefined_SafeUint32Mult3 |].
  split; [apply status_wrapper_returns, never_undefined_SafeUint32Mult4 |].
  split.
  { rewrite RoundUpUint32ToMultiple_run.
    destruct (v =? 0); [exists false; reflexivity |].
    destruct (Z.rem u v =? 0); [exists true; reflexivity | apply UA]. }
  unfold ConvertUint32ToInt32. cbv zeta.
  destruct (u <=? _); eexists; reflexivity.
Qed.

Lemma status_forms_return_status_witness :
  (representable int32_t (-2147483648) /\ representable int32_t (-1)) /\
  returns_status (SafeInt32Add_status (-2147483648) (-1) fresh) /\
  returns_status (SafeUint32Mult4_status (-3) 0 7 (2 ^ 40) fresh).
Proof.
  assert (R1 : representable int32_t (-2147483648)) by (split; vm_compute; discriminate).
  assert (R2 : representable int32_t (-1)) by (split; vm_compute; discriminate).
  split; [exact (conj R1 R2) |].
  destruct (status_forms_return_status (-2147483648) (-1) (-3) 0 7 (2 ^ 40)
              fresh R1 R2) as (H1 & _ & _ & _ & _ & H2 & _).
  exact (conj H1 H2).
Defined.

(** ** Operands of a narrower type *)

(** X14. The 64-bit operations cannot fail on 32-bit operands: for
    [int32_t] values [SafeInt64Add] and [SafeInt64Mult] return the
    exact sum and product, and for [uint32_t] values [SafeSizetMult]
    returns the exact product where [size_t] has at least 64 bits. *)
Theorem wider_type_absorbs
    (size_bits : positive) (a b u v : Z) (m : Machine) :
  representable int32_t a -> representable int32_t b ->
  representable uint32_t u -> representable uint32_t v ->
  SafeInt64Add a b m = (Returns (a + b), m) /\
  SafeInt64Mult a b m = (Returns (a * b), m) /\
  ((64 <= size_bits)%positive ->
     SafeSizetMult size_bits u v m = (Returns (u * v), m)).
Proof.
  intros Ha Hb Hu Hv.
  assert (B32 : INT32_MIN = -2147483648 /\ INT32_MAX = 2147483647)
    by (split; reflexivity).
  assert (B64 : numeric_min int64_t = -9223372036854775808 /\
                numeric_max int64_t = 9223372036854775807)
    by (split; reflexivity).
  assert (BU : UINT32_MAX = 4294967295) by reflexivity.
  pose proof (uint32_nonneg _ Hu) as Bu. pose proof (uint32_nonneg _ Hv) as Bv.
  unfold representable in Ha, Hb. fold INT32_MIN INT32_MAX in Ha, Hb.
  destruct B32 as [E1 E2]. rewrite E1, E2 in *. rewrite BU in *.
  assert (R64 : forall z, -9223372036854775808 <= z <= 9223372036854775807 ->
                          representable int64_t z).
  { intros z Hz. unfold representable. destruct B64 as [-> ->]. exact Hz. }
  split; [| split].
  - unfold SafeInt64Add. rewrite SafeAdd_spec by (apply R64; lia).
    assert (F : fits int64_t (a + b) = true)
      by (apply fits_representable, R64; lia).
    rewrite F. reflexivity.
  - rewrite SafeInt64Mult_spec.
    assert (F : fits int64_t (a * b) = true)
      by (apply fits_representable, R64; nia).
    rewrite F. reflexivity.
  - intros Hw. unfold SafeSizetMult.
    assert (W : 18446744073709551616 <= modulus (size_t size_bits)).
    { unfold modulus. cbn [width size_t].
      change 18446744073709551616 with (2 ^ 64).
      apply Z.pow_le_mono_r; lia. }
    assert (RS : forall z, 0 <= z <= 18446744073709551615 ->
                           representable (size_t size_bits) z).
    { intros z Hz. unfold representable.
      destruct (unsigned_bounds (size_t size_bits) eq_refl) as [-> ->]. lia. }
    rewrite SafeUnsignedMult_spec;
      [| reflexivity | apply RS; lia | apply RS; lia].
    assert (F : fits (size_t size_bits) (u * v) = true)
      by (apply fits_representable, RS; nia).
    rewrite F. reflexivity.
Qed.

Lemma wider_type_absorbs_witness :
  (representable int32_t (-2147483648) /\ representable uint32_t 4294967295 /\
   (64 <= 64)%positive) /\
  SafeInt64Mult (-2147483648) (-2147483648) fresh
    = (Returns 4611686018427387904, fresh) /\
  SafeSizetMult 64 4294967295 4294967295 fresh
    = (Returns 18446744065119617025, fresh).
Proof.
  assert (R1 : representable int32_t (-2147483648)) by (split; vm_compute; discriminate).
  assert (R2 : representable uint32_t 4294967295) by (split; vm_compute; discriminate).
  assert (W : (64 <= 64)%positive) by (vm_compute; discriminate).
  split; [exact (conj R1 (conj R2 W)) |].
  destruct (wider_type_absorbs 64 (-2147483648) (-2147483648)
              4294967295 4294967295 fresh R1 R1 R2 R2) as (_ & H1 & H2).
  split; [exact H1 | exact (H2 W)].
Defined.

(** ** Smaller operands *)

(** X15. Success of the unsigned operations is inherited by smaller
    operands: when [SafeUint32Add(a, b)] or [SafeUint32Mult(a, b)]
    succeeds, the same operation on [a' <= a] and [b' <= b] succeeds
    with the exact sum or product. *)
Theorem unsigned_success_downward_closed (a b a' b' : Z) (m : Machine) :
  representable uint32_t a -> representable uint32_t b ->
  0 <= a' <= a -> 0 <= b' <= b ->
  (succeeds (SafeUint32Add a b m) ->
     SafeUint32Add a' b' m = (Returns (a' + b'), m)) /\
  (succeeds (SafeUint32Mult a b m) ->
     SafeUint32Mult a' b' m = (Returns (a' * b'), m)).
Proof.
  intros Ha Hb Ha' Hb'.
  pose proof (uint32_nonneg _ Ha) as Ba. pose proof (uint32_nonneg _ Hb) as Bb.
  assert (R : forall z, 0 <= z <= UINT32_MAX -> representable uint32_t z).
  { intros z Hz. unfold representable. destruct uint32_bounds as (-> & _).
    exact Hz. }
  split.
  - unfold SafeUint32Add. rewrite !SafeAdd_spec; try (apply R; lia); try assumption.
    destruct (fits uint32_t (a + b)) eqn:F.
    + intros _. apply fits_representable, uint32_nonneg in F.
      assert (F' : fits uint32_t (a' + b') = true)
        by (apply fits_representable, R; lia).
      rewrite F'. reflexivity.
    + intros H. now apply succeeds_Throws in H.
  - rewrite !SafeUint32Mult_spec; try (apply R; lia); try assumption.
    destruct (Z.leb_spec (a * b) UINT32_MAX) as [L | L].
    + intros _.
      destruct (Z.leb_spec (a' * b') UINT32_MAX) as [L' | L']; [reflexivity | nia].
    + intros H. now apply succeeds_Throws in H.
Qed.

Lemma unsigned_success_downward_closed_witness :
  (representable uint32_t 65536 /\ representable uint32_t 65535 /\
   0 <= 1000 <= 65536 /\ 0 <= 999 <= 65535) /\
  SafeUint32Mult 1000 999 fresh = (Returns 999000, fresh).
Proof.
  assert (R1 : representable uint32_t 65536) by (split; vm_compute; discriminate).
  assert (R2 : representable uint32_t 65535) by (split; vm_compute; discriminate).
  assert (B1 : 0 <= 1000 <= 65536) by lia.
  assert (B2 : 0 <= 999 <= 65535) by lia.
  split; [exact (conj R1 (conj R2 (conj B1 B2))) |].
  destruct (unsigned_success_downward_closed 65536 65535 1000 999 fresh
              R1 R2 B1 B2) as (_ & H).
  apply H. exists 4294901760. reflexivity.
Defined.

(** ** Subtraction and the addition of the opposite *)

(** X16. For [int32_t] operands, [SafeInt32Sub(a, b)] behaves as
    [SafeInt32Add(a, -b)] whenever [b] has an opposite, that is for
    [b] other than [INT32_MIN]; for [b = INT32_MIN], which has none,
    the subtraction still succeeds exactly when [a] is negative. *)
Theorem subtraction_versus_opposite (a b : Z) (m : Machine) :
  representable int32_t a -> representable int32_t b ->
  (b <> INT32_MIN -> SafeInt32Sub a b m = SafeInt32Add a (- b) m) /\
  (b = INT32_MIN -> (succeeds (SafeInt32Sub a b m) <-> a < 0)).
Proof.
  intros Ha Hb.
  rewrite SafeInt32Sub_spec by assumption.
  pose proof Ha as Ha'. pose proof Hb as Hb'.
  unfold representable in Ha', Hb'. fold INT32_MIN INT32_MAX in Ha', Hb'.
  destruct int32_bounds as [Emin Hmax].
  split.
  - intros Hne. unfold SafeInt32Add. rewrite SafeAdd_spec.
    + replace (a + - b) with (a - b) by lia. reflexivity.
    + exact Ha.
    + unfold representable. fold INT32_MIN INT32_MAX. lia.
  - intros ->. unfold fits. fold INT32_MIN INT32_MAX.
    destruct (Z.leb_spec INT32_MIN (a - INT32_MIN)),
             (Z.leb_spec (a - INT32_MIN) INT32_MAX); cbn [andb].
    + split; [intros _; lia | intros _; apply succeeds_Returns].
    + split; [intros H1; now apply succeeds_Throws in H1 | lia].
    + lia.
    + lia.
Qed.

Lemma subtraction_versus_opposite_witness :
  (representable int32_t (-1) /\ representable int32_t INT32_MIN) /\
  succeeds (SafeInt32Sub (-1) INT32_MIN fresh).
Proof.
  assert (R1 : representable int32_t (-1)) by (split; vm_compute; discriminate).
  assert (R2 : representable int32_t INT32_MIN) by (split; vm_compute; discriminate).
  split; [exact (conj R1 R2) |].
  destruct (subtraction_versus_opposite (-1) INT32_MIN fresh R1 R2) as (_ & H).
  apply (H eq_refl). lia.
Defined.

(** ** Zero, one and minus one *)

(** X17. The edge operands never fail where the exact result exists:
    for 64-bit operands a product with 0 is 0 and a product with 1 is
    the other operand, on either side, and the product with -1
    succeeds for every operand but [INT64_MIN], the one value without
    an opposite; for [uint32_t] operands a product with 0 or 1
    succeeds on either side, and the ceiling division by 1 returns the
    dividend. *)
Theorem edge_operands (x u : Z) (m : Machine) :
  representable int64_t x -> representable uint32_t u ->
  SafeInt64Mult x 0 m = (Returns 0, m) /\
  SafeInt64Mult 0 x m = (Returns 0, m) /\
  SafeInt64Mult x 1 m = (Returns x, m) /\
  SafeInt64Mult 1 x m = (Returns x, m) /\
  (x <> INT64_MIN ->
     SafeInt64Mult x (-1) m = (Returns (- x), m) /\
     SafeInt64Mult (-1) x m = (Returns (- x), m)) /\
  (x = INT64_MIN ->
     SafeInt64Mult x (-1) m
       = (Throws "Arithmetic overflow", raised "Arithmetic overflow" m) /\
     SafeInt64Mult (-1) x m
       = (Throws "Arithmetic overflow", raised "Arithmetic overflow" m)) /\
  SafeUint32Mult u 0 m = (Returns 0, m) /\
  SafeUint32Mult 0 u m = (Returns 0, m) /\
  SafeUint32Mult u 1 m = (Returns u, m) /\
  SafeUint32Mult 1 u m = (Returns u, m) /\
  SafeUint32DivideUp u 1 m = (Returns u, m).
Proof.
  intros Hx Hu.
  assert (F0 : fits int64_t 0 = true) by reflexivity.
  assert (Fx : fits int64_t x = true) by now apply fits_representable.
  pose proof Hx as Hx'. unfold representable in Hx'.
  change (numeric_min int64_t) with INT64_MIN in Hx'.
  change (numeric_max int64_t) with INT64_MAX in Hx'.
  destruct int64_bounds as [Emin Hmax].
  assert (Fn : x <> INT64_MIN -> fits int64_t (- x) = true).
  { intros Hne. apply fits_representable. unfold representable.
    change (numeric_min int64_t) with INT64_MIN.
    change (numeric_max int64_t) with INT64_MAX. lia. }
  assert (Fm : x = INT64_MIN -> fits int64_t (- x) = false).
  { intros ->. reflexivity. }
  rewrite !SafeInt64Mult_spec.
  rewrite Z.mul_0_r, Z.mul_0_l, Z.mul_1_r, Z.mul_1_l, F0, Fx.
  replace (x * -1) with (- x) by lia. replace (-1 * x) with (- x) by lia.
  assert (R0 : representable uint32_t 0) by (split; vm_compute; discriminate).
  assert (R1 : representable uint32_t 1) by (split; vm_compute; discriminate).
  pose proof (uint32_nonneg _ Hu) as Bu.
  rewrite !SafeUint32Mult_spec by assumption.
  rewrite Z.mul_0_r, Z.mul_0_l, Z.mul_1_r, Z.mul_1_l.
  assert (L0 : (0 <=? UINT32_MAX) = true) by reflexivity.
  assert (Lu : (u <=? UINT32_MAX) = true) by (apply Z.leb_le; lia).
  rewrite L0, Lu.
  destruct (SafeUint32DivideUp_spec u 1 m Hu R1 ltac:(lia)) as [E _].
  rewrite E. replace (u + 1 - 1) with u by lia. rewrite Z.div_1_r.
  split; [reflexivity |]. split; [reflexivity |].
  split; [reflexivity |]. split; [reflexivity |].
  split; [intros Hne; rewrite (Fn Hne); split; reflexivity |].
  split; [intros He; rewrite (Fm He); split; reflexivity |].
  split; [reflexivity |]. split; [reflexivity |].
  split; [reflexivity |]. split; reflexivity.
Qed.

Lemma edge_operands_witness :
  (representable int64_t INT64_MIN /\ representable uint32_t 4294967295) /\
  SafeInt64Mult INT64_MIN 1 fresh = (Returns INT64_MIN, fresh) /\
  SafeInt64Mult (-1) INT64_MIN fresh
    = (Throws "Arithmetic overflow", raised "Arithmetic overflow" fresh) /\
  SafeUint32DivideUp 4294967295 1 fresh = (Returns 4294967295, fresh).
Proof.
  assert (R1 : representable int64_t INT64_MIN) by (split; vm_compute; discriminate).
  assert (R2 : representable uint32_t 4294967295) by (split; vm_compute; discriminate).
  split; [exact (conj R1 R2) |].
  destruct (edge_operands INT64_MIN 4294967295 fresh R1 R2)
    as (_ & _ & H1 & _ & _ & H2 & _ & _ & _ & _ & H3).
  split; [exact H1 |]. split; [| exact H3].
  destruct (H2 eq_refl) as [_ H]. exact H.
Defined.
